(** * Bulk asset upload of [wrangler pages publish]

    A shallow embedding of the [upload] function of the Pages command
    (directory walk, content fingerprints, missing-hash filter, bucket
    planner, per-bucket upload with retries, hash upsert and manifest),
    followed by the properties established about it.

    Conventions.
    - Strings are [string]; file contents are [list byte].
    - File sizes and timer delays are [Z]; counters and indices are [nat].
    - The JavaScript [Map] that holds the index keeps insertion order, which
      feeds the sort and the planner, so it is an association list with the
      update-in-place behaviour of [Map.prototype.set].
    - The object returned as manifest is a [gmap string string].
    - The remote API is a deterministic transition system over an abstract
      state; every call, timer, warning and unhandled rejection is appended
      to a trace. *)

From Stdlib Require Import ZArith Strings.Byte Ascii String.
From stdpp Require Import base list strings gmap pretty.

Set Warnings "-register-all".

(** ** Strings *)

Module Str.

(** [s.split(sep)] for a one-character separator. *)
Fixpoint split_acc (sep : ascii) (cur : list ascii) (s : list ascii)
  : list string :=
  match s with
  | [] => [string_of_list_ascii (rev cur)]
  | c :: r =>
      if Ascii.eqb c sep
      then string_of_list_ascii (rev cur) :: split_acc sep [] r
      else split_acc sep (c :: cur) r
  end.

Definition split (sep : ascii) (s : string) : list string :=
  split_acc sep [] (list_ascii_of_string s).

(** [parts.join(sep)]. *)
Definition join (sep : string) (parts : list string) : string :=
  String.concat sep parts.

(** [s.slice(0, n)] for [0 <= n]. *)
Definition slice0 (n : nat) (s : string) : string := String.substring 0 n s.

(** [s.substring(1)]. *)
Definition substring1 (s : string) : string :=
  match s with
  | EmptyString => EmptyString
  | String _ r => r
  end.

(** [list.includes(x)] on strings. *)
Definition includes (l : list string) (x : string) : bool :=
  bool_decide (x ∈ l).

Definition starts_with_slash (s : string) : bool :=
  match s with
  | String c _ => Ascii.eqb c "/"
  | EmptyString => false
  end.

Definition ends_with_slash (s : string) : bool :=
  match rev (list_ascii_of_string s) with
  | c :: _ => Ascii.eqb c "/"
  | [] => false
  end.

End Str.

(** ** [node:path], POSIX flavour *)

Module Path.

(** [path.sep]. *)
Definition sep : ascii := "/"%char.

(** The segment loop of [normalizeString]: empty and ["."] segments are
    dropped, [".."] removes the last kept segment when there is one that
    is not itself [".."], and is kept only when the path is relative.
    [res] is the stack of kept segments, last one first. *)
Fixpoint normalizeSegments (allowAboveRoot : bool) (res : list string)
    (segs : list string) : list string :=
  match segs with
  | [] => rev res
  | s :: r =>
      if bool_decide (s = "") || bool_decide (s = ".")
      then normalizeSegments allowAboveRoot res r
      else if bool_decide (s = "..")
      then match res with
           | top :: below =>
               if bool_decide (top = "..")
               then normalizeSegments allowAboveRoot
                      (if allowAboveRoot then s :: res else res) r
               else normalizeSegments allowAboveRoot below r
           | [] =>
               normalizeSegments allowAboveRoot
                 (if allowAboveRoot then [s] else []) r
           end
      else normalizeSegments allowAboveRoot (s :: res) r
  end.

(** [path.normalize]. *)
Definition normalize (p : string) : string :=
  if bool_decide (p = "") then "."
  else
    let isAbsolute := Str.starts_with_slash p in
    let trailingSeparator := Str.ends_with_slash p in
    let body :=
      Str.join "/" (normalizeSegments (negb isAbsolute) [] (Str.split sep p)) in
    if bool_decide (body = "")
    then (if isAbsolute then "/"
          else if trailingSeparator then "./" else ".")
    else
      let body := if trailingSeparator then body +:+ "/" else body in
      if isAbsolute then "/" +:+ body else body.

(** [path.join(a, b)]: the non-empty arguments joined by the separator,
    then normalised. *)
Definition join (a b : string) : string :=
  let joined :=
    if bool_decide (a = "") then b
    else if bool_decide (b = "") then a
    else a +:+ "/" +:+ b in
  if bool_decide (joined = "") then "." else normalize joined.

(** [path.basename(p)]: the last non-empty segment. *)
Definition basename (p : string) : string :=
  default "" (last (filter (λ s, s ≠ "") (Str.split sep p))).

(** Position of the last occurrence of [c], scanning [s] from index [i]. *)
Fixpoint last_index (c : ascii) (s : list ascii) (i : nat) : option nat :=
  match s with
  | [] => None
  | d :: r =>
      match last_index c r (S i) with
      | Some j => Some j
      | None => if Ascii.eqb d c then Some i else None
      end
  end.

(** [path.extname(p)]: from the last dot of the base name to its end;
    empty when there is no dot, when the only dot leads the base name,
    and for [".."]. *)
Definition extname (p : string) : string :=
  let b := basename p in
  match last_index "."%char (list_ascii_of_string b) 0 with
  | None => ""
  | Some 0 => ""
  | Some i =>
      if bool_decide (b = "..") then ""
      else String.substring i (String.length b - i) b
  end.

End Path.

(** ** [Buffer.prototype.toString("base64")] *)

Module Base64.

Definition alphabet : string :=
  "ABCDEFGHIJKLMNOPQRSTUVWXYZabcdefghijklmnopqrstuvwxyz0123456789+/".

Definition digit (n : N) : ascii :=
  default "="%char (String.get (N.to_nat n) alphabet).

(** Three bytes make four digits; a tail of one or two bytes is padded. *)
Fixpoint encode_bytes (bs : list N) : list ascii :=
  match bs with
  | [] => []
  | [a] =>
      [digit (N.shiftr a 2); digit (N.shiftl (N.land a 3) 4); "="; "="]%char
  | [a; b] =>
      [digit (N.shiftr a 2);
       digit (N.lor (N.shiftl (N.land a 3) 4) (N.shiftr b 4));
       digit (N.shiftl (N.land b 15) 2); "="%char]
  | a :: b :: c :: r =>
      digit (N.shiftr a 2)
      :: digit (N.lor (N.shiftl (N.land a 3) 4) (N.shiftr b 4))
      :: digit (N.lor (N.shiftl (N.land b 15) 2) (N.shiftr c 6))
      :: digit (N.land c 63)
      :: encode_bytes r
  end.

Definition encode (content : list byte) : string :=
  string_of_list_ascii (encode_bytes (map Byte.to_N content)).

End Base64.

Definition bytes_of_string (s : string) : list byte := list_byte_of_string s.

(** ** Parameters of the embedding *)

(** The four values imported from [./constants]; that module is not among
    the sources at hand, so they are parameters of the development. *)
Class Constants := {
  BULK_UPLOAD_CONCURRENCY : nat;
  MAX_BUCKET_FILE_COUNT : nat;
  MAX_BUCKET_SIZE : Z;
  MAX_UPLOAD_ATTEMPTS : nat;
}.

(** Functions of third-party packages: [hash(..).toString("hex")] of
    blake3-wasm, [getType] of mime and pretty-bytes. *)
Class Packages := {
  blake3_hex : string → string;
  getType : string → option string;
  prettyBytes : Z → string;
}.

(** ** Errors *)

(** What the function can throw: [new Error(message)], [new FatalError(message,
    code)], the error of a failed [fetchResult] (its [code] property is set
    only when the API reported one) and a rejected file-system call. *)
Inductive exn :=
| JsError (message : string)
| FatalError (message : string) (code : Z)
| FetchError (code : option Z)
| FsError (errno : string) (path : string).

(** [e.code] as a number, when the thrown value has such a property. *)
Definition exn_code (e : exn) : option Z :=
  match e with
  | FatalError _ c => Some c
  | FetchError c => c
  | JsError _ | FsError _ _ => None
  end.

(** [error.code || 1]: a missing or zero code falls back to 1. *)
Definition code_or_1 (e : exn) : Z :=
  match exn_code e with
  | Some c => if (c =? 0)%Z then 1%Z else c
  | None => 1%Z
  end.

(** [(e as { code: number }).code === 8000013]. *)
Definition jwt_expired (e : exn) : bool :=
  bool_decide (exn_code e = Some 8000013%Z).

Abbreviation result A := (exn + A)%type.

(** ** The index *)

Record FileContainer := {
  content : string;
  contentType : string;
  sizeInBytes : Z;
  hash : string;
}.

(** A JavaScript [Map] with string keys: entries in insertion order. *)
Module JsMap.

Definition t (V : Type) : Type := list (string * V).

(** [map.set(k, v)]: an existing key keeps its position. *)
Fixpoint set {V} (k : string) (v : V) (m : t V) : t V :=
  match m with
  | [] => [(k, v)]
  | (k', v') :: r =>
      if String.eqb k' k then (k, v) :: r else (k', v') :: set k v r
  end.

(** [map.get(k)]. *)
Fixpoint get {V} (k : string) (m : t V) : option V :=
  match m with
  | [] => None
  | (k', v') :: r => if String.eqb k' k then Some v' else get k r
  end.

(** [map.size]. *)
Definition size {V} (m : t V) : nat := length m.

(** [[...map.values()]], [[...map.keys()]] and [[...map.entries()]]. *)
Definition values {V} (m : t V) : list V := m.*2.
Definition keys {V} (m : t V) : list string := m.*1.
Definition entries {V} (m : t V) : list (string * V) := m.

End JsMap.

Abbreviation FileMap := (JsMap.t FileContainer).

(** ** The file system seen by the walk *)

(** A directory entry is either the file or directory itself, or a symbolic
    link together with what following it reaches ([None] when it dangles). *)
Inductive link (A : Type) :=
| Direct (a : A)
| Symlink (target : option A).
Arguments Direct {A} a.
Arguments Symlink {A} target.

Inductive node :=
| File (bytes : list byte) (size : Z)
| Dir (entries : list (string * link node)).

(** [reaches e Q]: what the entry leads to, if anything, satisfies [Q]. *)
Definition reaches (e : link node) (Q : node → Prop) : Prop :=
  match e with
  | Direct sub | Symlink (Some sub) => Q sub
  | Symlink None => True
  end.

(** Induction over file trees, with the hypothesis available for everything
    a directory's entries lead to. *)
Section NodeInduction.
Variable Q : node → Prop.
Hypothesis onFile : ∀ bytes size, Q (File bytes size).
Hypothesis onDir :
  ∀ entries, Forall (λ fe, reaches fe.2 Q) entries → Q (Dir entries).

Fixpoint node_induction (n : node) : Q n :=
  match n with
  | File bytes size => onFile bytes size
  | Dir entries =>
      onDir entries
        ((fix each (es : list (string * link node))
            : Forall (λ fe, reaches fe.2 Q) es :=
            match es return Forall (λ fe, reaches fe.2 Q) es with
            | [] => List.Forall_nil _
            | (file, e) :: rest =>
                @List.Forall_cons _ (λ fe, reaches fe.2 Q) (file, e) rest
                  (match e as e0 return reaches e0 Q with
                   | Direct sub => node_induction sub
                   | Symlink (Some sub) => node_induction sub
                   | Symlink None => I
                   end)
                  (each rest)
            end) entries)
  end.

End NodeInduction.

Inductive kind := KFile | KDirectory | KSymbolicLink.

(** The part of [fs.Stats] the walk reads. *)
Record Stats := { st_kind : kind; st_size : Z }.

Definition isSymbolicLink (s : Stats) : bool :=
  match st_kind s with KSymbolicLink => true | _ => false end.

Definition isDirectory (s : Stats) : bool :=
  match st_kind s with KDirectory => true | _ => false end.

Definition stats_of (n : node) : Stats :=
  match n with
  | File _ size => {| st_kind := KFile; st_size := size |}
  | Dir _ => {| st_kind := KDirectory; st_size := 0 |}
  end.

(** [lstat(path)] describes the entry itself. *)
Definition lstat (e : link node) : result Stats :=
  match e with
  | Direct n => inr (stats_of n)
  | Symlink _ => inr {| st_kind := KSymbolicLink; st_size := 0 |}
  end.

(** [stat(path)] of [node:fs/promises], the call the walk makes: it follows
    symbolic links, so the result describes what the link reaches and the
    call is rejected for a dangling link. *)
Definition stat (path : string) (e : link node) : result Stats :=
  match e with
  | Direct n => inr (stats_of n)
  | Symlink (Some n) => inr (stats_of n)
  | Symlink None => inl (FsError "ENOENT" path)
  end.

(** [readFile(path)], which follows symbolic links as well. *)
Definition readFile (path : string) (e : link node) : result (list byte) :=
  match e with
  | Direct (File bytes _) | Symlink (Some (File bytes _)) => inr bytes
  | Direct (Dir _) | Symlink (Some (Dir _)) => inl (FsError "EISDIR" path)
  | Symlink None => inl (FsError "ENOENT" path)
  end.

(** ** Indexing *)

Definition IGNORE_LIST : list string :=
  ["_worker.js"; "_redirects"; "_headers"; ".DS_Store"; "node_modules"; ".git"].

Definition MAX_FILE_SIZE : Z := 25 * 1024 * 1024.

Section Indexing.
Context {pkg : Packages}.

(** The key under which a file is stored. *)
Definition entryName (depth : nat) (filepath file : string) : string :=
  match depth with
  | 0 => file
  | _ => Str.join "/" (drop 1 (Str.split Path.sep filepath))
  end.

Definition tooLargeMessage (name : string) (size : Z) : string :=
  "Error: Pages only supports files up to " +:+ prettyBytes MAX_FILE_SIZE
  +:+ " in size" +:+ String "010" "" +:+ name +:+ " is "
  +:+ prettyBytes size +:+ " in size".

(** [extname(basename(name)).substring(1)]. *)
Definition extensionOf (name : string) : string :=
  Str.substring1 (Path.extname (Path.basename name)).

(** [hash(base64Content + extension).toString("hex").slice(0, 32)]. *)
Definition fingerprint (base64Content extension : string) : string :=
  Str.slice0 32 (blake3_hex (base64Content +:+ extension)).

(** The [else] branch of the walk's callback, after the file was read. *)
Definition indexFile (name : string) (fileContent : list byte)
    (filestat : Stats) (fileMap : FileMap) : result FileMap :=
  let base64Content := Base64.encode fileContent in
  let extension := extensionOf name in
  if (MAX_FILE_SIZE <? st_size filestat)%Z
  then inl (JsError (tooLargeMessage name (st_size filestat)))
  else inr (JsMap.set name
              {| content := base64Content;
                 contentType := default "application/octet-stream" (getType name);
                 sizeInBytes := st_size filestat;
                 hash := fingerprint base64Content extension |}
              fileMap).

(** The entry stored for an empty file. *)
Definition emptyRecord (name : string) : string * FileContainer :=
  (name,
   {| content := "";
      contentType := default "application/octet-stream" (getType name);
      sizeInBytes := 0;
      hash := fingerprint "" (extensionOf name) |}).

(** [walk(dir, fileMap, depth)], where [dirnode] is what [dir] resolves
    to.  [Promise.all] starts the callbacks of a directory together; the
    order in which they write to the map, and with it the order of the
    keys, the record that stays when two files have the same key, and the
    rejection reported when several callbacks reject, depend on their
    timing.  Here the callbacks are taken one after the other in
    [readdir] order, and the first rejection is the outcome. *)
Fixpoint walk (dirnode : node) (dir : string) (fileMap : FileMap)
    (depth : nat) {struct dirnode} : result FileMap :=
  match dirnode with
  | File _ _ => inl (FsError "ENOTDIR" dir)
  | Dir files =>
      (fix each (files : list (string * link node)) (fileMap : FileMap)
         : result FileMap :=
         match files with
         | [] => inr fileMap
         | (file, e) :: rest =>
             let filepath := Path.join dir file in
             match stat filepath e with
             | inl err => inl err
             | inr filestat =>
                 if Str.includes IGNORE_LIST file then each rest fileMap
                 else if isSymbolicLink filestat then each rest fileMap
                 else if isDirectory filestat then
                   match e with
                   | Direct sub | Symlink (Some sub) =>
                       match walk sub filepath fileMap (S depth) with
                       | inl err => inl err
                       | inr fileMap => each rest fileMap
                       end
                   | Symlink None => inl (FsError "ENOENT" filepath)
                   end
                 else
                   let name := entryName depth filepath file in
                   match readFile filepath e with
                   | inl err => inl err
                   | inr fileContent =>
                       match indexFile name fileContent filestat fileMap with
                       | inl err => inl err
                       | inr fileMap => each rest fileMap
                       end
                   end
             end
         end) files fileMap
  end.

End Indexing.

(** ** Upload set and bucket planner *)

Record Bucket := {
  files : list FileContainer;
  remainingSize : Z;
}.

(** [Array.prototype.sort(compare)]: stable; [a] is placed before [b] when
    [compare(a, b) < 0] and the two keep their order when it is [0]. *)
Section StableSort.
Context {A : Type} (compare : A → A → Z).

Fixpoint insertSorted (x : A) (l : list A) : list A :=
  match l with
  | [] => [x]
  | y :: r =>
      if (0 <? compare x y)%Z then y :: insertSorted x r else x :: y :: r
  end.

Definition sortBy (l : list A) : list A := foldr insertSorted [] l.

End StableSort.

(** Total size of a list of files. *)
Definition totalSize (fs : list FileContainer) : Z :=
  foldr (λ file acc, (sizeInBytes file + acc)%Z) 0%Z fs.

(** [(a, b) => b.sizeInBytes - a.sizeInBytes]. *)
Definition bySizeDescending (a b : FileContainer) : Z :=
  (sizeInBytes b - sizeInBytes a)%Z.

(** [files.filter((file) => missingHashes.includes(file.hash))]. *)
Definition uploadSet (missingHashes : list string) (files : list FileContainer)
  : list FileContainer :=
  filter (λ file, hash file ∈ missingHashes) files.

Definition sortedFiles (missingHashes : list string) (files : list FileContainer)
  : list FileContainer :=
  sortBy bySizeDescending (uploadSet missingHashes files).

Section Planner.
Context {cst : Constants}.

(** [new Array(BULK_UPLOAD_CONCURRENCY).fill(null).map(...)]. *)
Definition initialBuckets : list Bucket :=
  replicate BULK_UPLOAD_CONCURRENCY
    {| files := []; remainingSize := MAX_BUCKET_SIZE |}.

(** The condition under which a file goes into an existing bucket. *)
Definition fits (file : FileContainer) (bucket : Bucket) : bool :=
  (sizeInBytes file <=? remainingSize bucket)%Z
  && bool_decide (length (files bucket) < MAX_BUCKET_FILE_COUNT).

(** The inner loop [for (let i = 0; i < buckets.length; i++)], entered at
    [i] with [todo = buckets.length - i] iterations left: the index of the
    bucket at which the loop breaks, if it does. *)
Fixpoint findBucket (buckets : list Bucket) (bucketOffset : nat)
    (file : FileContainer) (todo i : nat) : option nat :=
  match todo with
  | 0 => None
  | S todo =>
      let idx := (i + bucketOffset) `mod` length buckets in
      match buckets !! idx with
      | Some bucket =>
          if fits file bucket then Some idx
          else findBucket buckets bucketOffset file todo (S i)
      | None => None
      end
  end.

(** [bucket.files.push(file); bucket.remainingSize -= file.sizeInBytes]. *)
Definition pushFile (file : FileContainer) (bucket : Bucket) : Bucket :=
  {| files := files bucket ++ [file];
     remainingSize := remainingSize bucket - sizeInBytes file |}.

(** One iteration of [for (const file of sortedFiles)]. *)
Definition placeFile (buckets : list Bucket) (bucketOffset : nat)
    (file : FileContainer) : list Bucket :=
  match findBucket buckets bucketOffset file (length buckets) 0 with
  | Some idx => alter (pushFile file) idx buckets
  | None =>
      buckets ++ [ {| files := [file];
                      remainingSize := MAX_BUCKET_SIZE - sizeInBytes file |} ]
  end.

(** The whole loop, from the given buckets and offset. *)
Fixpoint fillBuckets (buckets : list Bucket) (bucketOffset : nat)
    (sorted : list FileContainer) : list Bucket :=
  match sorted with
  | [] => buckets
  | file :: rest =>
      fillBuckets (placeFile buckets bucketOffset file) (S bucketOffset) rest
  end.

Definition planBuckets (sorted : list FileContainer) : list Bucket :=
  fillBuckets initialBuckets 0 sorted.

(** The two ceilings of a bucket. *)
Definition withinCeilings (bucket : Bucket) : Prop :=
  (totalSize (files bucket) ≤ MAX_BUCKET_SIZE)%Z
  ∧ length (files bucket) ≤ MAX_BUCKET_FILE_COUNT.

(** What the loop keeps true of every bucket: [remainingSize] is the room
    left under the size ceiling, and neither ceiling is exceeded. *)
Definition bucketInvariant (bucket : Bucket) : Prop :=
  remainingSize bucket = (MAX_BUCKET_SIZE - totalSize (files bucket))%Z
  ∧ (0 ≤ remainingSize bucket)%Z
  ∧ length (files bucket) ≤ MAX_BUCKET_FILE_COUNT.

End Planner.


(** ** Remote API and effects *)

Record UploadPayloadFile := {
  key : string;
  value : string;
  metadata_contentType : string;
  base64 : bool;
}.

Definition payloadOf (file : FileContainer) : UploadPayloadFile :=
  {| key := hash file;
     value := content file;
     metadata_contentType := contentType file;
     base64 := true |}.

(** The four endpoints reached through [fetchResult].  A call either
    resolves with the result or is rejected with an error whose [code] is
    the one the API reported, if any. *)
Class Remote (S : Type) := {
  remote_uploadToken : string → string → S → (option Z + string) * S;
  remote_checkMissing : string → list string → S → (option Z + list string) * S;
  remote_upload : string → list UploadPayloadFile → S → (option Z + ()) * S;
  remote_upsertHashes : string → list string → S → (option Z + ()) * S;
}.

(** What the run does that can be observed from outside: requests with
    their outcome, timers, warnings, and the rejections that no handler
    takes. *)
Inductive request :=
| FetchJwt (accountId projectName : string)
| CheckMissing (jwt : string) (hashes : list string)
| Upload (jwt : string) (payload : list UploadPayloadFile)
| UpsertHashes (jwt : string) (hashes : list string).

Inductive outcome :=
| Resolved
| Rejected (code : option Z).

Inductive event :=
| Fetch (req : request) (out : outcome)
| Sleep (ms : Z)
| Warn (message : string)
| Unhandled (e : exn).

(** State threaded through the run: the remote side, the [jwt] variable of
    the closure (unset until the first token arrives) and the trace. *)
Record World (S : Type) := {
  remote : S;
  jwt : string;
  trace : list event;
}.
Arguments remote {S} _.
Arguments jwt {S} _.
Arguments trace {S} _.

Definition M (S A : Type) : Type := World S → result A * World S.

Section Monad.
Context {S : Type}.

Definition ret {A} (a : A) : M S A := λ w, (inr a, w).

Definition throw {A} (e : exn) : M S A := λ w, (inl e, w).

Definition bind {A B} (m : M S A) (k : A → M S B) : M S B :=
  λ w, match m w with
       | (inr a, w) => k a w
       | (inl e, w) => (inl e, w)
       end.

(** [try { m } catch (e) { handler }]. *)
Definition tryCatch {A} (m : M S A) (handler : exn → M S A) : M S A :=
  λ w, match m w with
       | (inr a, w) => (inr a, w)
       | (inl e, w) => handler e w
       end.

Definition emit (ev : event) : M S () :=
  λ w, (inr (), {| remote := remote w; jwt := jwt w; trace := trace w ++ [ev] |}).

Definition getJwt : M S string := λ w, (inr (jwt w), w).

Definition setJwt (j : string) : M S () :=
  λ w, (inr (), {| remote := remote w; jwt := j; trace := trace w |}).

(** A call of [fetchResult] against one endpoint. *)
Definition fetchResult {A} (req : request) (endpoint : S → (option Z + A) * S)
  : M S A :=
  λ w, let '(r, s) := endpoint (remote w) in
       match r with
       | inl code =>
           (inl (FetchError code),
            {| remote := s; jwt := jwt w;
               trace := trace w ++ [Fetch req (Rejected code)] |})
       | inr a =>
           (inr a,
            {| remote := s; jwt := jwt w;
               trace := trace w ++ [Fetch req Resolved] |})
       end.

(** [await new Promise((resolve) => setTimeout(resolve, ms))]. *)
Definition sleep (ms : Z) : M S () := emit (Sleep ms).

(** [logger.warn(message)]. *)
Definition warn (message : string) : M S () := emit (Warn message).

End Monad.

Notation "x <- m ;; k" := (bind m (λ x, k))
  (at level 100, m at next level, right associativity).
Notation "m ;;; k" := (bind m (λ _, k))
  (at level 100, right associativity).

(** Observations on traces. *)

(** The events a computation appended, given the worlds before and after. *)
Definition since {S} (w w' : World S) : list event :=
  drop (length (trace w)) (trace w').

Definition sleeps (tr : list event) : list Z :=
  omap (λ ev, match ev with Sleep ms => Some ms | _ => None end) tr.

Definition uploadOutcomes (tr : list event) : list outcome :=
  omap (λ ev, match ev with Fetch (Upload _ _) o => Some o | _ => None end) tr.

Definition upsertOutcomes (tr : list event) : list outcome :=
  omap (λ ev, match ev with Fetch (UpsertHashes _ _) o => Some o | _ => None end) tr.

(** ** The [upload] function *)

(** A JavaScript object used as a map from strings to strings. *)
Abbreviation Manifest := (gmap string string).

(** [Object.fromEntries(entries)]: a later entry replaces an earlier one
    with the same key. *)
Definition fromEntries (entries : list (string * string)) : Manifest :=
  foldl (λ o kv, <[fst kv := snd kv]> o) ∅ entries.

(** The value [upload] returns. *)
Definition manifestOf (fileMap : FileMap) : Manifest :=
  fromEntries
    (map (λ '(fileName, file), ("/" +:+ fileName, hash file))
         (JsMap.entries fileMap)).

Definition TOO_MANY_FILES : string :=
  "Error: Pages only supports up to 20,000 files in a deployment. Ensure you have specified your build output directory correctly.".

Definition UPLOAD_FAILED : string := "Failed to upload files. Please try again.".

Definition UPSERT_FAILED : string :=
  "Failed to update file hashes. Every upload appeared to succeed for this deployment, but you might need to re-upload for future deployments. This shouldn't have any impact other than slowing the upload speed of your next deployment.".

Section Upload.
Context {cst : Constants} {pkg : Packages} {R : Type} {api : Remote R}.
Variables (accountId projectName : string).

Definition fetchJwt : M R string :=
  fetchResult (FetchJwt accountId projectName)
    (remote_uploadToken accountId projectName).

(** [jwt = await fetchJwt()]. *)
Definition refreshJwt : M R () := j <- fetchJwt ;; setJwt j.

Definition postCheckMissing (files : list FileContainer) : M R (list string) :=
  j <- getJwt ;;
  fetchResult (CheckMissing j (map hash files))
    (remote_checkMissing j (map hash files)).

Definition postUpload (payload : list UploadPayloadFile) : M R () :=
  j <- getJwt ;;
  fetchResult (Upload j payload) (remote_upload j payload).

Definition postUpsertHashes (files : list FileContainer) : M R () :=
  j <- getJwt ;;
  fetchResult (UpsertHashes j (map hash files))
    (remote_upsertHashes j (map hash files)).

(** [doUpload()] when the bucket's counter holds [attempts].  The calls
    nest at most [MAX_UPLOAD_ATTEMPTS - attempts] deep; [budget] is that
    measure, and its [0] branch is never taken from [doUpload] below,
    since the guard fails there. *)
Fixpoint doUploadFrom (budget : nat) (payload : list UploadPayloadFile)
    (attempts : nat) : M R () :=
  tryCatch (postUpload payload) (λ e,
    if bool_decide (attempts < MAX_UPLOAD_ATTEMPTS) then
      match budget with
      | S budget =>
          sleep (Z.of_nat attempts * 1000) ;;;
          (if jwt_expired e then refreshJwt else ret ()) ;;;
          doUploadFrom budget payload (S attempts)
      | 0 => throw e
      end
    else throw e).

(** [let attempts = 0; const doUpload = ...; doUpload()]. *)
Definition doUpload (payload : list UploadPayloadFile) : M R () :=
  doUploadFrom MAX_UPLOAD_ATTEMPTS payload 0.

(** The task queued for one non-empty bucket. *)
Definition uploadTask (bucket : Bucket) : M R () :=
  let payload := map payloadOf (files bucket) in
  tryCatch (doUpload payload) (λ error,
    throw (FatalError UPLOAD_FAILED (code_or_1 error))).

(** The payloads of the tasks that the loop queues: one per non-empty
    bucket. *)
Definition bucketPayloads (buckets : list Bucket)
  : list (list UploadPayloadFile) :=
  map (λ bucket, map payloadOf (files bucket))
      (filter (λ bucket, length (files bucket) ≠ 0) buckets).

(** [for (const bucket of buckets)] followed by [await queue.onIdle()],
    under the schedule in which every task has settled before the next
    one starts.  The promise that [queue.add] returns is dropped: when a
    task rejects, no handler takes the rejection, the queue goes on with
    the tasks that remain, and [onIdle] resolves once all have settled.
    What the runtime does about a rejection left unhandled is not part of
    [upload]. *)
Fixpoint uploadBuckets (buckets : list Bucket) : M R () :=
  match buckets with
  | [] => ret ()
  | bucket :: rest =>
      (if length (files bucket) =? 0 then ret ()
       else tryCatch (uploadTask bucket) (λ e, emit (Unhandled e))) ;;;
      uploadBuckets rest
  end.

Definition doUpsertHashes (files : list FileContainer) : M R () :=
  tryCatch (postUpsertHashes files) (λ e,
    sleep 1000 ;;;
    (if jwt_expired e then refreshJwt else ret ()) ;;;
    postUpsertHashes files).

(** The [try { await doUpsertHashes() } catch { logger.warn(...) }]. *)
Definition upsertOrWarn (files : list FileContainer) : M R () :=
  tryCatch (doUpsertHashes files) (λ _, warn UPSERT_FAILED).

(** From the first token to [await queue.onIdle()]. *)
Definition uploadMissing (fileMap : FileMap) : M R () :=
  let files := JsMap.values fileMap in
  refreshJwt ;;;
  missingHashes <- postCheckMissing files ;;
  let sorted := sortedFiles missingHashes files in
  let buckets := planBuckets sorted in
  uploadBuckets buckets.

(** Everything after the file-count check. *)
Definition uploadIndexed (fileMap : FileMap) : M R Manifest :=
  let files := JsMap.values fileMap in
  uploadMissing fileMap ;;;
  upsertOrWarn files ;;;
  ret (manifestOf fileMap).

(** [upload({ directory, accountId, projectName })], where [root] is the
    directory that the path [directory] names. *)
Definition upload (directory : string) (root : node) : M R Manifest :=
  match walk root directory [] 0 with
  | inl e => throw e
  | inr fileMap =>
      if (20000 <? Z.of_nat (JsMap.size fileMap))%Z
      then throw (FatalError TOO_MANY_FILES 1)
      else uploadIndexed fileMap
  end.

(** The run from a given state of the remote side. *)
Definition run {A} (m : M R A) (s : R) : result A * World R :=
  m {| remote := s; jwt := ""; trace := [] |}.

End Upload.

(** ** The retry policies, as traces *)

(** The warning that follows a rejected last attempt of the hash upsert. *)
Definition warningAfter (out : outcome) : list event :=
  match out with
  | Resolved => []
  | Rejected _ => [Warn UPSERT_FAILED]
  end.

Section RetryPolicy.
Context {cst : Constants}.
Variables (accountId projectName : string) (payload : list UploadPayloadFile).

(** The retry policy of a batch upload in the words of the specification,
    with the attempt bound as the code has it.  [RetryPolicy n tr r]: [tr]
    is what an upload leaves in the trace from the attempt made when [n]
    retries have been started, and [r] is its outcome.  An accepted attempt
    ends it.  A rejected attempt is retried as long as fewer than
    [MAX_UPLOAD_ATTEMPTS] retries have been started: after a wait of
    [n * 1000] milliseconds, and after a new token was fetched when the
    rejection carries code 8000013; if fetching the token fails, that
    failure is the outcome.  A rejected attempt that cannot be retried
    propagates its error. *)
Inductive RetryPolicy : nat → list event → result () → Prop :=
| policy_accepted n jwt :
    RetryPolicy n [Fetch (Upload jwt payload) Resolved] (inr ())
| policy_exhausted n jwt code :
    MAX_UPLOAD_ATTEMPTS ≤ n →
    RetryPolicy n [Fetch (Upload jwt payload) (Rejected code)]
      (inl (FetchError code))
| policy_retry n jwt code tr r :
    n < MAX_UPLOAD_ATTEMPTS →
    code ≠ Some 8000013%Z →
    RetryPolicy (S n) tr r →
    RetryPolicy n
      (Fetch (Upload jwt payload) (Rejected code)
       :: Sleep (Z.of_nat n * 1000) :: tr) r
| policy_refresh n jwt tr r :
    n < MAX_UPLOAD_ATTEMPTS →
    RetryPolicy (S n) tr r →
    RetryPolicy n
      (Fetch (Upload jwt payload) (Rejected (Some 8000013%Z))
       :: Sleep (Z.of_nat n * 1000)
       :: Fetch (FetchJwt accountId projectName) Resolved :: tr) r
| policy_refresh_failed n jwt code :
    n < MAX_UPLOAD_ATTEMPTS →
    RetryPolicy n
      [Fetch (Upload jwt payload) (Rejected (Some 8000013%Z));
       Sleep (Z.of_nat n * 1000);
       Fetch (FetchJwt accountId projectName) (Rejected code)]
      (inl (FetchError code)).

End RetryPolicy.

(** ** Concrete instances used in the examples *)

Module Sample.

(** Upload limits as the Pages service documents them. *)
Definition constants : Constants :=
  {| BULK_UPLOAD_CONCURRENCY := 3;
     MAX_BUCKET_FILE_COUNT := 5000;
     MAX_BUCKET_SIZE := 50 * 1024 * 1024;
     MAX_UPLOAD_ATTEMPTS := 5 |}.

(** Small limits, to exercise bucket overflow. *)
Definition tiny : Constants :=
  {| BULK_UPLOAD_CONCURRENCY := 2;
     MAX_BUCKET_FILE_COUNT := 2;
     MAX_BUCKET_SIZE := MAX_FILE_SIZE;
     MAX_UPLOAD_ATTEMPTS := 2 |}.

Definition hexDigit (n : N) : ascii :=
  default "0"%char (String.get (N.to_nat n) "0123456789abcdef").

Fixpoint hexOf (s : string) : string :=
  match s with
  | EmptyString => EmptyString
  | String c r =>
      let n := N_of_ascii c in
      String (hexDigit (N.shiftr n 4)) (String (hexDigit (N.land n 15)) (hexOf r))
  end.

(** A stand-in digest of 64 hexadecimal characters: the hexadecimal
    spelling of the end of the input, padded with zeros. *)
Definition toyDigest (s : string) : string :=
  Str.slice0 64
    (hexOf (String.rev s) +:+ string_of_list_ascii (replicate 64 "0"%char)).

Definition toyType (name : string) : option string :=
  if bool_decide (Path.extname name = ".txt") then Some "text/plain"
  else if bool_decide (Path.extname name = ".css") then Some "text/css"
  else None.

Definition packages : Packages :=
  {| blake3_hex := toyDigest;
     getType := toyType;
     prettyBytes := λ n, pretty n +:+ " B" |}.

(** A scripted remote side.  [answers] fixes the outcome of the coming
    calls in order ([None]: the call succeeds, [Some code]: it is
    rejected with that error code); once used up, calls succeed.  The
    store remembers uploaded keys and tokens are numbered. *)
Record Server := {
  stored : list string;
  answers : list (option (option Z));
  issued : nat;
}.

Definition nextAnswer (s : Server) : option (option Z) * Server :=
  match answers s with
  | [] => (None, s)
  | a :: r => (a, {| stored := stored s; answers := r; issued := issued s |})
  end.

Definition respond {A} (onSuccess : Server → A * Server) (s : Server)
  : (option Z + A) * Server :=
  match nextAnswer s with
  | (Some code, s) => (inl code, s)
  | (None, s) => let '(a, s) := onSuccess s in (inr a, s)
  end.

Definition server : Remote Server :=
  {| remote_uploadToken := λ _ _,
       respond (λ s, ("jwt" +:+ pretty (issued s),
                      {| stored := stored s; answers := answers s;
                         issued := Datatypes.S (issued s) |}));
     remote_checkMissing := λ _ hashes,
       respond (λ s, (filter (λ h, h ∉ stored s) hashes, s));
     remote_upload := λ _ payload,
       respond (λ s, ((), {| stored := stored s ++ map key payload;
                             answers := answers s; issued := issued s |}));
     remote_upsertHashes := λ _ _, respond (λ s, ((), s)) |}.

Definition fresh (answers : list (option (option Z))) : Server :=
  {| stored := []; answers := answers; issued := 0 |}.

(** A remote side that already stores the given fingerprints. *)
Definition knowing (hashes : list string) : Server :=
  {| stored := hashes; answers := []; issued := 0 |}.

Definition file (text : string) : link node :=
  Direct (File (bytes_of_string text) (Z.of_nat (String.length text))).

(** A site with a nested directory. *)
Definition site : node :=
  Dir [("index.txt", file "hello");
       ("css", Direct (Dir [("site.css", file "body {}")]));
       ("copy.txt", file "hello");
       (".git", Direct (Dir [("HEAD", file "ref")]))].

(** The index of [site] under the stand-in packages. *)
Definition siteIndex : FileMap :=
  [("index.txt",
    {| content := "aGVsbG8="; contentType := "text/plain"; sizeInBytes := 5;
       hash := "7478743d384762735647610000000000" |});
   ("css/site.css",
    {| content := "Ym9keSB7fQ=="; contentType := "text/css"; sizeInBytes := 7;
       hash := "7373633d3d5166374253656b396d5900" |});
   ("copy.txt",
    {| content := "aGVsbG8="; contentType := "text/plain"; sizeInBytes := 5;
       hash := "7478743d384762735647610000000000" |})].

(** A site with two symbolic links: one to a file and one to a directory,
    both outside the site. *)
Definition linked : node :=
  Dir [("a.txt", file "a");
       ("secret.txt", Symlink (Some (File (bytes_of_string "key") 3)));
       ("shared", Symlink (Some (Dir [("b.txt", file "b")])))].

(** Two files of the same name, one in a sub-directory. *)
Definition shadowed : node :=
  Dir [("x.txt", file "top");
       ("sub", Direct (Dir [("x.txt", file "nested")]))].

(** A directory holding one file of a stated size. *)
Definition single (size : Z) : node :=
  Dir [("big.bin", Direct (File [] size))].

(** Index records given by fingerprint and size alone. *)
Definition blob (h : string) (size : Z) : FileContainer :=
  {| content := ""; contentType := "application/octet-stream";
     sizeInBytes := size; hash := h |}.

Definition blobs : list FileContainer :=
  [blob "h1" 10; blob "h2" MAX_FILE_SIZE; blob "h3" 0; blob "h4" 26214390;
   blob "h5" 7; blob "h1" 10; blob "h6" 1].

(** Tally names: ["f"], ["af"], ["aaf"], ... *)
Fixpoint tally (n : nat) : string :=
  match n with
  | 0 => "f"
  | Datatypes.S n => String "a" (tally n)
  end.

Definition emptyFile (name : string) : string * link node :=
  (name, Direct (File [] 0)).

(** A flat directory of [n] empty files. *)
Definition flat (n : nat) : node := Dir (map (λ i, emptyFile (tally i)) (seq 0 n)).

(** A remote side that rejects every upload with a fixed code. *)
Definition refusing (code : option Z) : Remote Server :=
  {| remote_uploadToken := remote_uploadToken (Remote := server);
     remote_checkMissing := remote_checkMissing (Remote := server);
     remote_upload := λ _ _ s, (inl code, s);
     remote_upsertHashes := remote_upsertHashes (Remote := server) |}.

End Sample.

(** ** Further parts of the Pages command *)

(** The order in which the sort leaves the upload set: no file is larger
    than one before it. *)
Definition noSmallerThan (a b : FileContainer) : Prop :=
  (sizeInBytes b ≤ sizeInBytes a)%Z.

(** A list of files in which every file is at least as large as all the
    files after it. *)
Fixpoint largestFirst (fs : list FileContainer) : Prop :=
  match fs with
  | [] => True
  | file :: rest => Forall (noSmallerThan file) rest ∧ largestFirst rest
  end.

(** What the planner keeps true of a bucket while [rest] is still to be
    placed: the bucket is ordered, and each of its files is at least as
    large as every file of [rest]. *)
Definition orderedBefore (rest : list FileContainer) (bucket : Bucket) : Prop :=
  largestFirst (files bucket)
  ∧ Forall (λ f, Forall (noSmallerThan f) rest) (files bucket).

(** The bucket that a file gets when no existing bucket takes it. *)
Definition ownBucket {cst : Constants} (file : FileContainer) : Bucket :=
  {| files := [file]; remainingSize := MAX_BUCKET_SIZE - sizeInBytes file |}.

(** [let counter = fileMap.size - sortedFiles.length]. *)
Definition initialCounter (fileMap : FileMap) (sorted : list FileContainer) : Z :=
  (Z.of_nat (JsMap.size fileMap) - Z.of_nat (length sorted))%Z.

(** The counter once the task of every non-empty bucket has resolved:
    each adds [bucket.files.length]. *)
Definition counterAfter (buckets : list Bucket) (counter : Z) : Z :=
  foldl (λ counter bucket,
           if length (files bucket) =? 0 then counter
           else (counter + Z.of_nat (length (files bucket)))%Z)
        counter buckets.

(** The payloads of the upload requests that were accepted, in order. *)
Definition acceptedPayloads (tr : list event) : list (list UploadPayloadFile) :=
  omap (λ ev, match ev with
              | Fetch (Upload _ payload) Resolved => Some payload
              | _ => None
              end) tr.


(** The tree without the entries that the walk ignores by name. *)
Fixpoint prune (n : node) : node :=
  match n with
  | File bytes size => File bytes size
  | Dir entries =>
      Dir ((fix each (es : list (string * link node)) : list (string * link node) :=
              match es with
              | [] => []
              | (file, e) :: rest =>
                  if Str.includes IGNORE_LIST file then each rest
                  else (file,
                        match e with
                        | Direct sub => Direct (prune sub)
                        | Symlink (Some sub) => Symlink (Some (prune sub))
                        | Symlink None => Symlink None
                        end) :: each rest
              end) entries)
  end.

(** A name as [readdir] returns it: not empty, not ["."] or [".."], and
    without a separator. *)
Definition plainName (name : string) : Prop :=
  name ≠ "" ∧ name ≠ "." ∧ name ≠ ".."
  ∧ "/"%char ∉ list_ascii_of_string name.

(** All entry names of a tree, at every level, are plain. *)
Fixpoint plainTree (n : node) : Prop :=
  match n with
  | File _ _ => True
  | Dir entries =>
      (fix each (es : list (string * link node)) : Prop :=
         match es with
         | [] => True
         | (file, e) :: rest =>
             plainName file
             ∧ match e with
               | Direct sub | Symlink (Some sub) => plainTree sub
               | Symlink None => True
               end
             ∧ each rest
         end) entries
  end.

Section RelativeNames.
Context {pkg : Packages}.

(** The walk with every file stored under its path relative to the root:
    [below] lists the directories entered below the root, and a file is
    named by these and its own name, joined by ["/"].  Everything else is
    as in [walk]. *)
Fixpoint walkRelative (dirnode : node) (dir : string) (below : list string)
    (fileMap : FileMap) {struct dirnode} : result FileMap :=
  match dirnode with
  | File _ _ => inl (FsError "ENOTDIR" dir)
  | Dir files =>
      (fix each (files : list (string * link node)) (fileMap : FileMap)
         : result FileMap :=
         match files with
         | [] => inr fileMap
         | (file, e) :: rest =>
             let filepath := Path.join dir file in
             match stat filepath e with
             | inl err => inl err
             | inr filestat =>
                 if Str.includes IGNORE_LIST file then each rest fileMap
                 else if isSymbolicLink filestat then each rest fileMap
                 else if isDirectory filestat then
                   match e with
                   | Direct sub | Symlink (Some sub) =>
                       match walkRelative sub filepath (below ++ [file]) fileMap with
                       | inl err => inl err
                       | inr fileMap => each rest fileMap
                       end
                   | Symlink None => inl (FsError "ENOENT" filepath)
                   end
                 else
                   let name := Str.join "/" (below ++ [file]) in
                   match readFile filepath e with
                   | inl err => inl err
                   | inr fileContent =>
                       match indexFile name fileContent filestat fileMap with
                       | inl err => inl err
                       | inr fileMap => each rest fileMap
                       end
                   end
             end
         end) files fileMap
  end.

End RelativeNames.

(** ** The files of a tree *)

(** The entry of a directory with a given name. *)
Fixpoint entryOf (name : string) (entries : list (string * link node))
  : option (link node) :=
  match entries with
  | [] => None
  | (file, e) :: rest =>
      if String.eqb file name then Some e else entryOf name rest
  end.

(** What the path [segments] leads to below [n], when it leads to a file:
    its bytes and its size.  Links are followed, as [stat] and [readFile]
    follow them, and no segment is a name that the walk ignores. *)
Fixpoint fileAt (n : node) (segments : list string)
  : option (list byte * Z) :=
  match segments with
  | [] =>
      match n with
      | File bytes size => Some (bytes, size)
      | Dir _ => None
      end
  | s :: rest =>
      match n with
      | File _ _ => None
      | Dir entries =>
          if Str.includes IGNORE_LIST s then None
          else
            match entryOf s entries with
            | Some (Direct sub) | Some (Symlink (Some sub)) => fileAt sub rest
            | Some (Symlink None) | None => None
            end
      end
  end.

(** No directory of the tree has two entries of the same name. *)
Fixpoint distinctNames (n : node) : Prop :=
  match n with
  | File _ _ => True
  | Dir entries =>
      (fix each (es : list (string * link node)) : Prop :=
         match es with
         | [] => True
         | (file, e) :: rest =>
             (file ∉ map fst rest)
             ∧ match e with
               | Direct sub | Symlink (Some sub) => distinctNames sub
               | Symlink None => True
               end
             ∧ each rest
         end) entries
  end.


(** The sample site with its entries listed in another order. *)
Module SampleTrees.

Definition reordered : node :=
  Dir [(".git", Direct (Dir [("HEAD", Sample.file "ref")]));
       ("copy.txt", Sample.file "hello");
       ("css", Direct (Dir [("site.css", Sample.file "body {}")]));
       ("index.txt", Sample.file "hello")].

End SampleTrees.

(** ** Listing the projects of an account *)

Section ListProjects.
Context {Project R : Type}.

(** [fetchResult] on [/accounts/:accountId/pages/projects] with the query
    parameters [per_page] and [page]: what the API answers in state [r],
    and the state it is in afterwards. *)
Variable projectsPage : string → nat → nat → R → result (list Project) * R.

Definition pageSize : nat := 10.

(** The [while] loop of [listProjects], entered with [page] and [results].
    [fuel] bounds the number of requests; [None] is a loop that still runs
    when they are used up. *)
Fixpoint listProjectsFrom (fuel : nat) (accountId : string) (page : nat)
    (results : list Project) (r : R) : option (result (list Project) * R) :=
  if bool_decide (Nat.modulo (length results) pageSize = 0) then
    match fuel with
    | 0 => None
    | S fuel =>
        match projectsPage accountId pageSize page r with
        | (inl err, r) => Some (inl err, r)
        | (inr json, r) =>
            let page := S page in
            let results := results ++ json in
            if bool_decide (length json < pageSize) then Some (inr results, r)
            else listProjectsFrom fuel accountId page results r
        end
    end
  else Some (inr results, r).

Definition listProjects (fuel : nat) (accountId : string) (r : R)
    : option (result (list Project) * R) :=
  listProjectsFrom fuel accountId 1 [] r.

(** An API that holds the projects [all] of the account and answers the
    request for page [page] with that slice of them. *)
Definition paginates (accountId : string) (all : list Project) : Prop :=
  ∀ per_page page r,
    projectsPage accountId per_page page r
    = (inr (take per_page (drop (per_page * (page - 1)) all)), r).

(** [answers accountId page pages r r']: asked for the pages [page],
    [page + 1], ... of [pageSize] entries one after the other, the API in
    state [r] resolves with the lists [pages], and is then in state [r']. *)
Inductive answers (accountId : string)
  : nat → list (list Project) → R → R → Prop :=
| answers_nil page r : answers accountId page [] r r
| answers_cons page json pages r r1 r' :
    projectsPage accountId pageSize page r = (inr json, r1) →
    answers accountId (S page) pages r1 r' →
    answers accountId page (json :: pages) r r'.

(** A page after which the loop goes on: it is not short, and the number
    of entries it brings is a multiple of the page size. *)
Definition evenPage (json : list Project) : Prop :=
  pageSize ≤ length json ∧ Nat.modulo (length json) pageSize = 0.

End ListProjects.

(** ** Request headers of the API client *)

Module Cfetch.

(** [HeadersInit]: a [Headers] object, given by what its [entries()]
    yields, an array of pairs, or a record.  [undefined] is [None]. *)
Inductive HeadersInit : Type :=
| HeadersObject (entries : list (string * string))
| HeaderPairs (pairs : list (string * string))
| HeaderRecord (record : gmap string string).

(** [ApiCredentials]. *)
Inductive ApiCredentials : Type :=
| ApiToken (apiToken : string)
| AuthKey (authKey authEmail : string).

Definition cloneHeaders (headers : option HeadersInit) : gmap string string :=
  match headers with
  | Some (HeadersObject entries) => fromEntries entries
  | Some (HeaderPairs pairs) => fromEntries pairs
  | Some (HeaderRecord record) => record
  | None => ∅
  end.

Definition addAuthorizationHeaderIfUnspecified (headers : gmap string string)
    (auth : ApiCredentials) : gmap string string :=
  if bool_decide (is_Some (headers !! "Authorization")) then headers
  else
    match auth with
    | ApiToken apiToken => <["Authorization" := "Bearer " +:+ apiToken]> headers
    | AuthKey authKey authEmail =>
        <["X-Auth-Email" := authEmail]> (<["X-Auth-Key" := authKey]> headers)
    end.

(** [wranglerVersion] is the version field of [package.json]. *)
Definition addUserAgent (wranglerVersion : string)
    (headers : gmap string string) : gmap string string :=
  <["User-Agent" := "wrangler/" +:+ wranglerVersion]> headers.

(** The headers of the request [fetchInternalResponse] makes. *)
Definition requestHeaders (wranglerVersion : string)
    (headers : option HeadersInit) (apiToken : ApiCredentials)
    : gmap string string :=
  addUserAgent wranglerVersion
    (addAuthorizationHeaderIfUnspecified (cloneHeaders headers) apiToken).

End Cfetch.

(** An API that pages through twenty-five projects, and one that answers
    every request with the same full page. *)
Module SampleProjects.

Definition all : list nat := seq 0 25.

Definition paging (accountId : string) (per_page page : nat) (r : unit)
    : result (list nat) * unit :=
  (inr (take per_page (drop (per_page * (page - 1)) all)), r).

Definition repeating (accountId : string) (per_page page : nat) (r : unit)
    : result (list nat) * unit :=
  (inr (seq 0 per_page), r).

(** An API that takes no notice of [per_page] and answers with all it has. *)
Definition unpaged (accountId : string) (per_page page : nat) (r : unit)
    : result (list nat) * unit :=
  (inr all, r).

End SampleProjects.

(** * Properties *)

(** ** Paths and base64 on examples *)

Example join_plain : Path.join "dist" "css" = "dist/css".
Proof. reflexivity. Qed.

Example join_dot : Path.join "." "css" = "css".
Proof. reflexivity. Qed.

Example join_dot_slash : Path.join "./dist/" "a.txt" = "dist/a.txt".
Proof. reflexivity. Qed.

Example join_absolute : Path.join "/srv/www" "../a" = "/srv/a".
Proof. reflexivity. Qed.

Example extname_cases :
  map Path.extname ["a.txt"; "sub/b.tar.gz"; ".bashrc"; "Makefile"; "x."; ".."; ".a.b"]
  = [".txt"; ".gz"; ""; ""; "."; ""; ".b"].
Proof. reflexivity. Qed.

Example base64_Man : Base64.encode (bytes_of_string "Man") = "TWFu".
Proof. reflexivity. Qed.

Example base64_padding :
  map (λ s, Base64.encode (bytes_of_string s)) [""; "M"; "Ma"; "hello"]
  = [""; "TQ=="; "TWE="; "aGVsbG8="].
Proof. reflexivity. Qed.

Example sortedFiles_stable :
  map (λ file, (hash file, sizeInBytes file))
      (sortedFiles ["h1"; "h3"; "h5"; "h6"] Sample.blobs)
  = [("h1", 10%Z); ("h1", 10%Z); ("h5", 7%Z); ("h6", 1%Z); ("h3", 0%Z)].
Proof. reflexivity. Qed.

(** ** Sorting and the upload set *)

Lemma insertSorted_perm {A} (compare : A → A → Z) x l :
  insertSorted compare x l ≡ₚ x :: l.
Proof.
  induction l as [|y r IH]; simpl; [done|].
  destruct (0 <? compare x y)%Z; [|done].
  rewrite IH. apply Permutation_swap.
Qed.

Lemma sortBy_perm {A} (compare : A → A → Z) l : sortBy compare l ≡ₚ l.
Proof.
  induction l as [|x r IH]; simpl; [done|].
  rewrite insertSorted_perm. by rewrite IH.
Qed.

Lemma sortedFiles_perm missingHashes fs :
  sortedFiles missingHashes fs ≡ₚ uploadSet missingHashes fs.
Proof. apply sortBy_perm. Qed.

Lemma elem_of_uploadSet missingHashes fs file :
  file ∈ uploadSet missingHashes fs ↔ file ∈ fs ∧ hash file ∈ missingHashes.
Proof. unfold uploadSet. rewrite list_elem_of_filter. tauto. Qed.

(** ** The planner *)

Lemma totalSize_app fs gs :
  totalSize (fs ++ gs) = (totalSize fs + totalSize gs)%Z.
Proof. induction fs as [|f r IH]; simpl; lia. Qed.

Section PlannerFacts.
Context {cst : Constants}.

Lemma findBucket_Some buckets bucketOffset file todo i idx :
  findBucket buckets bucketOffset file todo i = Some idx →
  ∃ bucket, buckets !! idx = Some bucket ∧ fits file bucket = true.
Proof.
  revert i. induction todo as [|todo IH]; intros i; simpl; [done|].
  destruct (buckets !! ((i + bucketOffset) `mod` length buckets))
    as [bucket|] eqn:Hlook; [|done].
  destruct (fits file bucket) eqn:Hfits; [|by apply IH].
  intros [= <-]. eauto.
Qed.

Lemma pushFile_invariant file bucket :
  fits file bucket = true →
  bucketInvariant bucket → bucketInvariant (pushFile file bucket).
Proof.
  unfold fits, bucketInvariant. intros Hfits (Hrem & Hpos & Hlen).
  apply andb_true_iff in Hfits as [Hsize Hcount].
  apply Z.leb_le in Hsize. apply bool_decide_eq_true in Hcount.
  simpl. rewrite totalSize_app, length_app. simpl. lia.
Qed.

Lemma alter_pushFile_perm file idx buckets bucket :
  buckets !! idx = Some bucket →
  concat (map files (alter (pushFile file) idx buckets))
  ≡ₚ file :: concat (map files buckets).
Proof.
  revert idx. induction buckets as [|b r IH]; intros [|idx]; simpl; try done.
  - intros _. rewrite <- app_assoc. simpl.
    by rewrite <- Permutation_middle.
  - intros Hlook. rewrite (IH _ Hlook). by rewrite Permutation_middle.
Qed.

Lemma placeFile_perm buckets bucketOffset file :
  concat (map files (placeFile buckets bucketOffset file))
  ≡ₚ file :: concat (map files buckets).
Proof.
  unfold placeFile.
  destruct (findBucket _ _ _ _ _) as [idx|] eqn:Hfind.
  - apply findBucket_Some in Hfind as (bucket & Hlook & _).
    by eapply alter_pushFile_perm.
  - rewrite map_app, concat_app. simpl.
    by rewrite <- Permutation_middle, !app_nil_r.
Qed.

Lemma fillBuckets_perm sorted buckets bucketOffset :
  concat (map files (fillBuckets buckets bucketOffset sorted))
  ≡ₚ sorted ++ concat (map files buckets).
Proof.
  revert buckets bucketOffset.
  induction sorted as [|file rest IH]; intros buckets bucketOffset; simpl.
  - done.
  - rewrite IH, placeFile_perm. by rewrite Permutation_middle.
Qed.

Lemma initialBuckets_empty : concat (map files initialBuckets) = [].
Proof.
  unfold initialBuckets.
  induction BULK_UPLOAD_CONCURRENCY as [|n IH]; simpl; done.
Qed.

Lemma planBuckets_perm sorted :
  concat (map files (planBuckets sorted)) ≡ₚ sorted.
Proof.
  unfold planBuckets.
  by rewrite fillBuckets_perm, initialBuckets_empty, app_nil_r.
Qed.

Section Capacity.
Hypothesis bucket_holds_a_file : (MAX_FILE_SIZE ≤ MAX_BUCKET_SIZE)%Z.
Hypothesis bucket_takes_a_file : 0 < MAX_BUCKET_FILE_COUNT.

Lemma initialBuckets_invariant : Forall bucketInvariant initialBuckets.
Proof.
  apply Forall_replicate. unfold bucketInvariant, MAX_FILE_SIZE in *.
  simpl. lia.
Qed.

Lemma placeFile_invariant buckets bucketOffset file :
  (sizeInBytes file ≤ MAX_FILE_SIZE)%Z →
  Forall bucketInvariant buckets →
  Forall bucketInvariant (placeFile buckets bucketOffset file).
Proof.
  intros Hsize Hall. unfold placeFile.
  destruct (findBucket _ _ _ _ _) as [idx|] eqn:Hfind.
  - apply findBucket_Some in Hfind as (bucket & Hlook & Hfits).
    apply Forall_alter; [done|].
    intros b Hb Hinv. rewrite Hlook in Hb. injection Hb as <-.
    by apply pushFile_invariant.
  - apply Forall_app. split; [done|].
    apply Forall_singleton. unfold bucketInvariant. simpl.
    split_and!; lia.
Qed.

Lemma fillBuckets_invariant sorted buckets bucketOffset :
  Forall (λ file, (sizeInBytes file ≤ MAX_FILE_SIZE)%Z) sorted →
  Forall bucketInvariant buckets →
  Forall bucketInvariant (fillBuckets buckets bucketOffset sorted).
Proof.
  revert buckets bucketOffset.
  induction sorted as [|file rest IH]; intros buckets bucketOffset Hs Hb;
    simpl; [done|].
  apply Forall_cons in Hs as [Hfile Hrest].
  apply IH; [done|]. by apply placeFile_invariant.
Qed.

End Capacity.

End PlannerFacts.

Example planBuckets_tiny :
  map (λ bucket, (map hash (files bucket), remainingSize bucket))
      (planBuckets (cst := Sample.tiny)
         (sortedFiles ["h1"; "h2"; "h4"; "h5"; "h6"] Sample.blobs))
  = [(["h2"], 0%Z); (["h4"; "h1"], 0%Z); (["h1"; "h5"], 26214383%Z);
     (["h6"], 26214399%Z)].
Proof. reflexivity. Qed.

(** C1. The planner's buckets partition the upload set: the files of all
    buckets together are exactly the files whose hash is missing, each
    occurrence once; and every bucket is within both ceilings, its total
    size at most [MAX_BUCKET_SIZE] and its file count at most
    [MAX_BUCKET_FILE_COUNT].  This holds for all inputs whose file sizes
    are at most the 25 MiB that the walk admits, provided a bucket can hold
    one such file ([MAX_BUCKET_SIZE] at least 25 MiB and a positive
    [MAX_BUCKET_FILE_COUNT]). *)
Theorem planner_partitions_within_ceilings {cst : Constants}
    (missingHashes : list string) (fs : list FileContainer) :
  (MAX_FILE_SIZE ≤ MAX_BUCKET_SIZE)%Z →
  0 < MAX_BUCKET_FILE_COUNT →
  Forall (λ file, (sizeInBytes file ≤ MAX_FILE_SIZE)%Z) fs →
  let buckets := planBuckets (sortedFiles missingHashes fs) in
  concat (map files buckets) ≡ₚ uploadSet missingHashes fs
  ∧ Forall withinCeilings buckets.
Proof.
  intros Hsize Hcount Hfiles buckets. split.
  - unfold buckets. by rewrite planBuckets_perm, sortedFiles_perm.
  - assert (Forall bucketInvariant buckets) as Hinv.
    { apply fillBuckets_invariant; [done..| |by apply initialBuckets_invariant].
      rewrite sortedFiles_perm. apply Forall_forall.
      intros file [Hin _]%elem_of_uploadSet.
      by apply (proj1 (Forall_forall _ _) Hfiles). }
    eapply Forall_impl; [exact Hinv|].
    intros bucket (Hrem & Hpos & Hlen). split; [lia|done].
Qed.

Lemma planner_partitions_within_ceilings_witness :
  let buckets :=
    planBuckets (cst := Sample.tiny)
      (sortedFiles ["h1"; "h2"; "h4"; "h5"; "h6"] Sample.blobs) in
  concat (map files buckets)
  ≡ₚ uploadSet ["h1"; "h2"; "h4"; "h5"; "h6"] Sample.blobs
  ∧ Forall (withinCeilings (cst := Sample.tiny)) buckets.
Proof.
  apply (planner_partitions_within_ceilings (cst := Sample.tiny)).
  - simpl. reflexivity.
  - simpl. lia.
  - unfold Sample.blobs. repeat constructor; simpl; unfold MAX_FILE_SIZE; lia.
Defined.

(** ** The index as a map *)

Section JsMapFacts.
Context {V : Type}.
Implicit Types (m : JsMap.t V) (k : string) (v : V).

Lemma set_entries k v m k' v' :
  (k', v') ∈ JsMap.set k v m → (k' = k ∧ v' = v) ∨ (k', v') ∈ m.
Proof.
  induction m as [|[k0 v0] r IH]; simpl.
  - intros [= -> ->]%list_elem_of_singleton. by left.
  - destruct (String.eqb_spec k0 k) as [->|Hne].
    + intros [[= -> ->]|Hin]%elem_of_cons; [by left|].
      right. by apply elem_of_cons; right.
    + intros [[= -> ->]|Hin]%elem_of_cons.
      * right. by apply elem_of_cons; left.
      * destruct (IH Hin) as [?|?]; [by left|].
        right. by apply elem_of_cons; right.
Qed.

Lemma set_keys k v m :
  JsMap.keys (JsMap.set k v m)
  = if bool_decide (k ∈ JsMap.keys m) then JsMap.keys m
    else JsMap.keys m ++ [k].
Proof.
  unfold JsMap.keys. induction m as [|[k0 v0] r IH]; csimpl; [done|].
  destruct (String.eqb_spec k0 k) as [->|Hne]; csimpl.
  - rewrite bool_decide_eq_true_2; [done|]. by apply elem_of_cons; left.
  - rewrite IH. case_bool_decide as Hin.
    + rewrite bool_decide_eq_true_2; [done|]. by apply elem_of_cons; right.
    + rewrite bool_decide_eq_false_2; [done|].
      intros [->|?]%elem_of_cons; done.
Qed.

Lemma set_NoDup k v m :
  NoDup (JsMap.keys m) → NoDup (JsMap.keys (JsMap.set k v m)).
Proof.
  intros Hm. rewrite set_keys. case_bool_decide as Hin; [done|].
  apply NoDup_app. split_and!; [done| |apply NoDup_singleton].
  intros k' Hk' ->%list_elem_of_singleton. done.
Qed.

Lemma get_Some k v m :
  NoDup (JsMap.keys m) → JsMap.get k m = Some v ↔ (k, v) ∈ m.
Proof.
  unfold JsMap.keys. induction m as [|[k0 v0] r IH]; csimpl; intros Hnd.
  - split; [done|]. by intros ?%elem_of_nil.
  - apply NoDup_cons in Hnd as [Hk0 Hr].
    destruct (String.eqb_spec k0 k) as [->|Hne].
    + split.
      * intros [= ->]. by apply elem_of_cons; left.
      * intros [[= ->]|Hin]%elem_of_cons; [done|].
        destruct Hk0. apply list_elem_of_fmap. by exists (k, v).
    + rewrite (IH Hr). split.
      * intros ?. by apply elem_of_cons; right.
      * intros [[= -> ->]|Hin]%elem_of_cons; done.
Qed.

End JsMapFacts.

(** ** The walk *)

Section WalkFacts.
Context {pkg : Packages}.

(** The result of [stat] never describes a symbolic link. *)
Lemma stat_not_symlink path e filestat :
  stat path e = inr filestat → isSymbolicLink filestat = false.
Proof.
  destruct e as [[]|[[]|]]; simpl; intros [= <-] || discriminate; done.
Qed.

(** A property of the index that indexing one file preserves is preserved
    by the walk. *)
Lemma walk_preserves (Inv : FileMap → Prop) :
  (∀ name bytes filestat fileMap fileMap',
      Inv fileMap →
      indexFile name bytes filestat fileMap = inr fileMap' → Inv fileMap') →
  ∀ root dir fileMap depth fileMap',
    Inv fileMap → walk root dir fileMap depth = inr fileMap' → Inv fileMap'.
Proof.
  intros Hstep root.
  induction root as [bytes size|entries IH] using node_induction;
    intros dir fileMap depth fileMap' Hinv; simpl; [discriminate|].
  revert fileMap Hinv.
  induction IH as [|[file e] rest He _ IHrest]; intros fileMap Hinv.
  - by intros [= <-].
  - destruct (stat (Path.join dir file) e) as [err|filestat]; [discriminate|].
    destruct (Str.includes IGNORE_LIST file); [by apply IHrest|].
    destruct (isSymbolicLink filestat); [by apply IHrest|].
    destruct (isDirectory filestat).
    + destruct e as [sub|[sub|]]; simpl in He; [| |discriminate].
      all: destruct (walk sub _ fileMap (S depth)) as [err|fm] eqn:Hsub;
        [discriminate|].
      all: apply IHrest; by eapply He.
    + destruct (readFile _ e) as [err|fileContent]; [discriminate|].
      destruct (indexFile _ fileContent filestat fileMap) as [err|fm] eqn:Hidx;
        [discriminate|].
      apply IHrest. by eapply Hstep.
Qed.

Lemma indexFile_inr name bytes filestat fileMap fileMap' :
  indexFile name bytes filestat fileMap = inr fileMap' →
  (st_size filestat ≤ MAX_FILE_SIZE)%Z
  ∧ fileMap' =
      JsMap.set name
        {| content := Base64.encode bytes;
           contentType := default "application/octet-stream" (getType name);
           sizeInBytes := st_size filestat;
           hash := fingerprint (Base64.encode bytes) (extensionOf name) |}
        fileMap.
Proof.
  unfold indexFile.
  destruct (Z.ltb_spec MAX_FILE_SIZE (st_size filestat)); [done|].
  by intros [= <-].
Qed.

(** What holds of every record of the index. *)
Lemma walk_entries root dir fileMap name file :
  walk root dir [] 0 = inr fileMap →
  (name, file) ∈ fileMap →
  (sizeInBytes file ≤ MAX_FILE_SIZE)%Z
  ∧ ∃ bytes,
      content file = Base64.encode bytes
      ∧ hash file = fingerprint (Base64.encode bytes) (extensionOf name).
Proof.
  intros Hwalk. revert name file.
  eapply (walk_preserves (λ fm, ∀ name file, (name, file) ∈ fm → _));
    [|by intros ?? ?%elem_of_nil|exact Hwalk].
  intros name bytes filestat fm fm' Hfm [Hsize ->]%indexFile_inr name' file'.
  intros [[-> ->]|Hin]%set_entries; [|by apply Hfm].
  simpl. split; [done|]. by exists bytes.
Qed.

(** The keys of the index are pairwise distinct. *)
Lemma walk_keys_NoDup root dir fileMap :
  walk root dir [] 0 = inr fileMap → NoDup (JsMap.keys fileMap).
Proof.
  apply (walk_preserves (λ fm, NoDup (JsMap.keys fm))); [|apply NoDup_nil_2].
  intros name bytes filestat fm fm' Hfm [_ ->]%indexFile_inr.
  by apply set_NoDup.
Qed.

End WalkFacts.

(** ** Fingerprints *)


Lemma slice0_length n s :
  n ≤ String.length s → String.length (Str.slice0 n s) = n.
Proof.
  unfold Str.slice0. revert s.
  induction n as [|n IH]; intros [|c s]; simpl; try lia.
  intros Hle. rewrite IH; lia.
Qed.

Lemma toyDigest_length s : String.length (Sample.toyDigest s) = 64.
Proof.
  unfold Sample.toyDigest. apply slice0_length.
  generalize (Sample.hexOf (String.rev s)). intros t.
  induction t as [|c t IH].
  - apply Nat.eq_le_incl. reflexivity.
  - change (64 ≤ Datatypes.S (String.length (t +:+ string_of_list_ascii (replicate 64 "0"%char)))).
    lia.
Qed.

Example walk_site :
  match walk (pkg := Sample.packages) Sample.site "dist" [] 0 with
  | inr fileMap =>
      map (λ '(name, file), (name, content file, sizeInBytes file, hash file))
          fileMap
  | inl _ => []
  end
  = [("index.txt", "aGVsbG8=", 5%Z, "7478743d384762735647610000000000");
     ("css/site.css", "Ym9keSB7fQ==", 7%Z, "7373633d3d5166374253656b396d5900");
     ("copy.txt", "aGVsbG8=", 5%Z, "7478743d384762735647610000000000")].
Proof. reflexivity. Qed.

(** ** Limits checked before any request *)

Lemma set_fresh {V} k (v : V) (m : JsMap.t V) :
  k ∉ JsMap.keys m → JsMap.set k v m = m ++ [(k, v)].
Proof.
  unfold JsMap.keys. induction m as [|[k0 v0] r IH]; csimpl; [done|].
  intros Hnot. apply not_elem_of_cons in Hnot as [Hne Hr].
  destruct (String.eqb_spec k0 k) as [->|_]; [done|]. by rewrite IH.
Qed.

Lemma tally_inj i j : Sample.tally i = Sample.tally j → i = j.
Proof.
  revert j. induction i as [|i IH]; intros [|j]; simpl; try done.
  intros [= Heq]. f_equal. by apply IH.
Qed.

Lemma tally_not_ignored i : Str.includes IGNORE_LIST (Sample.tally i) = false.
Proof.
  apply bool_decide_eq_false. unfold IGNORE_LIST. intros Hin.
  repeat (apply elem_of_cons in Hin as [Hin|Hin]; [by destruct i|]).
  by apply elem_of_nil in Hin.
Qed.

Section FlatDirectory.
Context {pkg : Packages}.

Lemma walk_flat_from n a dir fileMap :
  (∀ j, a ≤ j → Sample.tally j ∉ JsMap.keys fileMap) →
  walk (Dir (map (λ i, Sample.emptyFile (Sample.tally i)) (seq a n)))
    dir fileMap 0
  = inr (fileMap ++ map (λ i, emptyRecord (Sample.tally i)) (seq a n)).
Proof.
  revert a fileMap. induction n as [|n IH]; intros a fileMap Hfresh.
  - simpl. by rewrite app_nil_r.
  - assert (JsMap.set (Sample.tally a) (emptyRecord (Sample.tally a)).2 fileMap
            = fileMap ++ [emptyRecord (Sample.tally a)]) as Hset.
    { apply set_fresh. by apply Hfresh. }
    specialize (IH (Datatypes.S a) (fileMap ++ [emptyRecord (Sample.tally a)])).
    simpl in *. rewrite tally_not_ignored. simpl.
    change (Base64.encode []) with "".
    rewrite Hset, IH; [by rewrite <- app_assoc|].
    intros j Hj. unfold JsMap.keys. rewrite fmap_app.
    intros [Hin|Hin]%elem_of_app.
    + apply (Hfresh j); [lia|done].
    + apply list_elem_of_singleton, tally_inj in Hin. lia.
Qed.

(** The walk of a flat directory of [n] empty files indexes all of them. *)
Lemma walk_flat n dir :
  walk (Sample.flat n) dir [] 0
  = inr (map (λ i, emptyRecord (Sample.tally i)) (seq 0 n)).
Proof.
  unfold Sample.flat. rewrite walk_flat_from; [done|].
  intros j _ ?%elem_of_nil. done.
Qed.

End FlatDirectory.

Section Preflight.
Context {cst : Constants} {pkg : Packages} {R : Type} {api : Remote R}.
Variables (accountId projectName : string).

Lemma upload_walk_failed directory root (s : R) e :
  walk root directory [] 0 = inl e →
  run (upload accountId projectName directory root) s
  = (inl e, {| remote := s; jwt := ""; trace := [] |}).
Proof. intros Hwalk. unfold run, upload. by rewrite Hwalk. Qed.

Lemma upload_too_many directory root (s : R) fileMap :
  walk root directory [] 0 = inr fileMap →
  (20000 < Z.of_nat (JsMap.size fileMap))%Z →
  run (upload accountId projectName directory root) s
  = (inl (FatalError TOO_MANY_FILES 1),
     {| remote := s; jwt := ""; trace := [] |}).
Proof.
  intros Hwalk Hsize. unfold run, upload. rewrite Hwalk.
  by apply Z.ltb_lt in Hsize as ->.
Qed.

Lemma walk_single directory file bytes size :
  Str.includes IGNORE_LIST file = false →
  walk (Dir [(file, Direct (File bytes size))]) directory [] 0
  = indexFile file bytes {| st_kind := KFile; st_size := size |} [].
Proof.
  intros Hfile. simpl. rewrite Hfile.
  by destruct (indexFile _ _ _ _).
Qed.

End Preflight.

(** C6. Both limits are checked before any request is made, with exact
    boundaries.  An index of more than 20,000 entries ends the run with the
    fatal error about the file count, the remote side untouched and the
    trace empty.  A directory holding one file of size at most
    25 * 1024 * 1024 bytes (in particular exactly that size) is indexed with
    that size; when the file is larger (in particular by one byte) the run
    ends with an error whose message names the file and its formatted size,
    again without any request.  More generally any failure of the walk ends
    the run untouched, and no record of an index exceeds the limit. *)
Theorem preflight_limits {cst : Constants} {pkg : Packages} {R : Type}
    {api : Remote R} (accountId projectName directory : string) (s : R) :
  let untouched := {| remote := s; jwt := ""; trace := [] |} in
  (∀ root fileMap,
      walk root directory [] 0 = inr fileMap →
      (20000 < Z.of_nat (JsMap.size fileMap))%Z →
      run (upload accountId projectName directory root) s
      = (inl (FatalError TOO_MANY_FILES 1), untouched))
  ∧ (∀ file bytes size,
       Str.includes IGNORE_LIST file = false →
       let root := Dir [(file, Direct (File bytes size))] in
       ((size ≤ 25 * 1024 * 1024)%Z →
        ∃ record,
          walk root directory [] 0 = inr [(file, record)]
          ∧ sizeInBytes record = size)
       ∧ ((25 * 1024 * 1024 < size)%Z →
          run (upload accountId projectName directory root) s
          = (inl (JsError
                    ("Error: Pages only supports files up to "
                     +:+ prettyBytes (25 * 1024 * 1024) +:+ " in size"
                     +:+ String "010" "" +:+ file +:+ " is "
                     +:+ prettyBytes size +:+ " in size")),
             untouched)))
  ∧ (∀ root e,
       walk root directory [] 0 = inl e →
       run (upload accountId projectName directory root) s = (inl e, untouched))
  ∧ (∀ root fileMap name file,
       walk root directory [] 0 = inr fileMap →
       (name, file) ∈ fileMap → (sizeInBytes file ≤ 25 * 1024 * 1024)%Z).
Proof.
  intros untouched. split_and!.
  - intros root fileMap. apply upload_too_many.
  - intros file bytes size Hfile root. split; intros Hsize.
    + eexists. split.
      * unfold root. rewrite walk_single by done. unfold indexFile. simpl.
        destruct (Z.ltb_spec MAX_FILE_SIZE size) as [Hlt|_]; [|reflexivity].
        unfold MAX_FILE_SIZE in Hlt. lia.
      * reflexivity.
    + apply upload_walk_failed. unfold root. rewrite walk_single by done.
      unfold indexFile. simpl.
      destruct (Z.ltb_spec MAX_FILE_SIZE size) as [_|Hle]; [reflexivity|].
      unfold MAX_FILE_SIZE in Hle. lia.
  - intros root e. apply upload_walk_failed.
  - intros root fileMap name file Hwalk Hin.
    by destruct (walk_entries _ _ _ _ _ Hwalk Hin) as [Hsize _].
Qed.

Lemma preflight_limits_witness :
  let untouched := {| remote := Sample.fresh []; jwt := ""; trace := [] |} in
  let run_on root :=
    run (upload (cst := Sample.constants) (pkg := Sample.packages)
           (api := Sample.server) "account" "project" "dist" root)
        (Sample.fresh []) in
  run_on (Sample.flat (Z.to_nat 20001))
  = (inl (FatalError TOO_MANY_FILES 1), untouched)
  ∧ (∃ record,
       walk (pkg := Sample.packages) (Sample.single 26214400) "dist" [] 0
       = inr [("big.bin", record)]
       ∧ sizeInBytes record = 26214400%Z)
  ∧ run_on (Sample.single 26214401)
    = (inl (JsError
              ("Error: Pages only supports files up to 26214400 B in size"
               +:+ String "010" "" +:+ "big.bin is 26214401 B in size")),
       untouched).
Proof.
  intros untouched run_on.
  destruct (preflight_limits (cst := Sample.constants) (pkg := Sample.packages)
              (api := Sample.server) "account" "project" "dist"
              (Sample.fresh [])) as (Hcount & Hsize & _ & _).
  split_and!.
  - unfold run_on. remember (Z.to_nat 20001) as n eqn:Hn.
    apply (Hcount (Sample.flat n) _ (walk_flat n "dist")).
    unfold JsMap.size. rewrite length_map, length_seq, Hn, Z2Nat.id; lia.
  - apply (Hsize "big.bin" [] 26214400%Z); [reflexivity|lia].
  - apply (Hsize "big.bin" [] 26214401%Z); [reflexivity|lia].
Defined.

(** ** The manifest *)

Lemma fromEntries_from (entries : list (string * string)) (o : Manifest) k v :
  NoDup entries.*1 →
  (foldl (λ o kv, <[fst kv := snd kv]> o) o entries) !! k = Some v
  ↔ (k, v) ∈ entries ∨ ((k ∉ entries.*1) ∧ o !! k = Some v).
Proof.
  revert o. induction entries as [|[k0 v0] r IH]; intros o; csimpl.
  - intros _. split; [intros ?; right; split; [apply not_elem_of_nil|done]|].
    intros [?%elem_of_nil|[_ ?]]; done.
  - intros [Hk0 Hr]%NoDup_cons. rewrite (IH _ Hr).
    destruct (decide (k0 = k)) as [->|Hne].
    + rewrite lookup_insert_eq. split.
      * intros [Hin|[_ [= ->]]]; left; [by apply elem_of_cons; right|].
        by apply elem_of_cons; left.
      * intros [[[= ->]|Hin]%elem_of_cons|[Hnot _]].
        -- by right.
        -- destruct Hk0. apply list_elem_of_fmap. by exists (k, v).
        -- destruct Hnot. by apply elem_of_cons; left.
    + rewrite lookup_insert_ne by done. split.
      * intros [Hin|[Hnot Ho]]; [left; by apply elem_of_cons; right|].
        right. split; [|done]. by intros [->|?]%elem_of_cons.
      * intros [[[= -> ->]|Hin]%elem_of_cons|[Hnot Ho]]; [done|by left|].
        right. split; [|done].
        intros ?. apply Hnot. by apply elem_of_cons; right.
Qed.

Lemma fromEntries_lookup (entries : list (string * string)) k v :
  NoDup entries.*1 →
  fromEntries entries !! k = Some v ↔ (k, v) ∈ entries.
Proof.
  intros Hnd. unfold fromEntries. rewrite fromEntries_from by done.
  rewrite lookup_empty. split; [intros [?|[_ ?]]; done|by left].
Qed.

Lemma manifest_entry_keys (fileMap : FileMap) :
  (map (λ '(fileName, file), ("/" +:+ fileName, hash file)) fileMap).*1
  = map (String.app "/") (JsMap.keys fileMap).
Proof.
  unfold JsMap.keys. induction fileMap as [|[name file] r IH]; csimpl; [done|].
  by rewrite IH.
Qed.

Lemma manifestOf_lookup (fileMap : FileMap) k fp :
  NoDup (JsMap.keys fileMap) →
  manifestOf fileMap !! k = Some fp
  ↔ ∃ logicalPath file,
      k = "/" +:+ logicalPath
      ∧ JsMap.get logicalPath fileMap = Some file
      ∧ hash file = fp.
Proof.
  intros Hnd. unfold manifestOf, JsMap.entries.
  rewrite fromEntries_lookup.
  - rewrite list_elem_of_fmap. split.
    + intros ([name file] & [= -> ->] & Hin). exists name, file.
      split_and!; [done| |done]. by apply get_Some.
    + intros (name & file & -> & Hget & <-). exists (name, file).
      split; [done|]. by apply get_Some.
  - rewrite manifest_entry_keys. apply (NoDup_fmap_2 _). exact Hnd.
Qed.

Section ManifestFacts.
Context {cst : Constants} {pkg : Packages} {R : Type} {api : Remote R}.
Variables (accountId projectName : string).

Lemma uploadIndexed_inr fileMap (w : World R) manifest :
  (uploadIndexed accountId projectName fileMap w).1 = inr manifest →
  manifest = manifestOf fileMap.
Proof.
  unfold uploadIndexed, bind.
  destruct (uploadMissing _ _ fileMap w) as [[e|[]] w1]; simpl; [done|].
  destruct (upsertOrWarn _ _ _ w1) as [[e|[]] w2]; simpl; [done|].
  by intros [= <-].
Qed.

Lemma upload_inr directory root (s : R) manifest :
  (run (upload accountId projectName directory root) s).1 = inr manifest →
  ∃ fileMap,
    walk root directory [] 0 = inr fileMap ∧ manifest = manifestOf fileMap.
Proof.
  unfold run, upload.
  destruct (walk root directory [] 0) as [e|fileMap]; [done|].
  destruct (20000 <? _)%Z; [done|].
  intros Hrun%uploadIndexed_inr. by exists fileMap.
Qed.

End ManifestFacts.

(** C2. Whenever [upload] returns, the object it returns has, for every
    logical path of the index, the entry that maps the path prefixed with
    ["/"] to the fingerprint of that file, and it has no other entry.  The
    index is the result of the walk alone, so files that were not uploaded
    because their fingerprint was not reported missing are covered like the
    others. *)
Theorem manifest_covers_index {cst : Constants} {pkg : Packages} {R : Type}
    {api : Remote R} (accountId projectName directory : string) (root : node)
    (s : R) (manifest : Manifest) :
  (run (upload accountId projectName directory root) s).1 = inr manifest →
  ∃ fileMap,
    walk root directory [] 0 = inr fileMap
    ∧ (∀ logicalPath file,
         JsMap.get logicalPath fileMap = Some file →
         manifest !! ("/" +:+ logicalPath) = Some (hash file))
    ∧ (∀ k fp,
         manifest !! k = Some fp →
         ∃ logicalPath file,
           k = "/" +:+ logicalPath
           ∧ JsMap.get logicalPath fileMap = Some file
           ∧ hash file = fp).
Proof.
  intros (fileMap & Hwalk & ->)%upload_inr. exists fileMap.
  pose proof (walk_keys_NoDup _ _ _ Hwalk) as Hnd.
  split_and!; [done| |].
  - intros logicalPath file Hget. apply manifestOf_lookup; [done|].
    by exists logicalPath, file.
  - intros k fp Hk. by apply manifestOf_lookup in Hk.
Qed.

Example upload_site_skips_known :
  let r := run (upload (cst := Sample.constants) (pkg := Sample.packages)
                  (api := Sample.server) "account" "project" "dist" Sample.site)
               (Sample.knowing ["7478743d384762735647610000000000"]) in
  match r.1 with
  | inr m => [m !! "/index.txt"; m !! "/css/site.css"; m !! "/copy.txt"; m !! "/.git/HEAD"]
  | inl _ => []
  end
  = [Some "7478743d384762735647610000000000";
     Some "7373633d3d5166374253656b396d5900";
     Some "7478743d384762735647610000000000"; None]
  ∧ omap (λ ev, match ev with
                | Fetch (Upload _ payload) _ => Some (map key payload)
                | _ => None
                end) (trace r.2)
    = [["7373633d3d5166374253656b396d5900"]].
Proof. vm_compute. done. Qed.

Lemma manifest_covers_index_witness :
  (run (upload (cst := Sample.constants) (pkg := Sample.packages)
          (api := Sample.server) "account" "project" "dist" Sample.site)
       (Sample.knowing ["7478743d384762735647610000000000"])).1
  = inr (manifestOf Sample.siteIndex)
  ∧ manifestOf Sample.siteIndex !! "/copy.txt"
    = Some "7478743d384762735647610000000000".
Proof.
  assert ((run (upload (cst := Sample.constants) (pkg := Sample.packages)
                  (api := Sample.server) "account" "project" "dist" Sample.site)
               (Sample.knowing ["7478743d384762735647610000000000"])).1
          = inr (manifestOf Sample.siteIndex)) as Hrun by reflexivity.
  split; [exact Hrun|].
  destruct (manifest_covers_index _ _ _ _ _ _ Hrun)
    as (fileMap & Hwalk & Hcovers & _).
  assert (fileMap = Sample.siteIndex) as -> by (by injection Hwalk).
  exact (Hcovers "copy.txt" _ eq_refl).
Defined.

(** ** The missing-hash filter *)

Section DedupFacts.
Context {cst : Constants}.

Lemma bucketPayloads_concat buckets :
  concat (bucketPayloads buckets) = map payloadOf (concat (map files buckets)).
Proof.
  unfold bucketPayloads. induction buckets as [|b r IH]; [done|].
  rewrite filter_cons. csimpl. rewrite map_app, <- IH.
  case_decide as Hlen; [reflexivity|].
  destruct (files b) as [|f l]; [reflexivity|discriminate Hlen].
Qed.

Lemma filter_key_payloadOf h fs :
  length (filter (λ p, key p = h) (map payloadOf fs))
  = length (filter (λ file, hash file = h) fs).
Proof.
  induction fs as [|f r IH]; [done|].
  csimpl. rewrite !filter_cons. simpl.
  case_decide; simpl; by rewrite IH.
Qed.

Lemma filter_hash_uploadSet h missingHashes fs :
  length (filter (λ file, hash file = h) (uploadSet missingHashes fs))
  = if bool_decide (h ∈ missingHashes)
    then length (filter (λ file, hash file = h) fs)
    else 0.
Proof.
  unfold uploadSet. induction fs as [|f r IH]; [by case_bool_decide|].
  rewrite !filter_cons.
  destruct (decide (hash f ∈ missingHashes)) as [Hin|Hnot].
  - rewrite filter_cons. destruct (decide (hash f = h)) as [<-|Hne].
    + simpl. rewrite IH. by rewrite bool_decide_eq_true_2.
    + done.
  - destruct (decide (hash f = h)) as [<-|Hne]; [|done].
    rewrite IH. by rewrite bool_decide_eq_false_2.
Qed.

(** The entries of all queued payloads that carry a given key. *)
Lemma payload_copies missingHashes fs h :
  length (filter (λ p, key p = h)
            (concat (bucketPayloads
                       (planBuckets (sortedFiles missingHashes fs)))))
  = if bool_decide (h ∈ missingHashes)
    then length (filter (λ file, hash file = h) fs)
    else 0.
Proof.
  rewrite bucketPayloads_concat, filter_key_payloadOf.
  rewrite planBuckets_perm, sortedFiles_perm.
  apply filter_hash_uploadSet.
Qed.

End DedupFacts.

Lemma two_entries_counted {V} (P : V → Prop) `{∀ v, Decision (P v)}
    (m : JsMap.t V) k1 v1 k2 v2 :
  (k1, v1) ∈ m → (k2, v2) ∈ m → k1 ≠ k2 → P v1 → P v2 →
  2 ≤ length (filter P (JsMap.values m)).
Proof.
  assert (∀ (l : JsMap.t V) k v,
            (k, v) ∈ l → P v → 1 ≤ length (filter P (JsMap.values l)))
    as Hone.
  { unfold JsMap.values. intros l k v Hin Hv.
    assert (v ∈ filter P l.*2) as Hf.
    { apply list_elem_of_filter. split; [done|].
      apply list_elem_of_fmap. by exists (k, v). }
    destruct (filter P l.*2); [by apply elem_of_nil in Hf|simpl; lia]. }
  unfold JsMap.values in *. intros H1 H2 Hne Hv1 Hv2.
  induction m as [|[k v] r IH]; [by apply elem_of_nil in H1|].
  csimpl. rewrite filter_cons.
  apply elem_of_cons in H1 as [[= <- <-]|H1];
    apply elem_of_cons in H2 as [[= <- <-]|H2]; try done.
  - rewrite decide_True by done. simpl.
    specialize (Hone r k2 v2 H2 Hv2). lia.
  - rewrite decide_True by done. simpl.
    specialize (Hone r k1 v1 H1 Hv1). lia.
  - specialize (IH H1 H2). case_decide; simpl; lia.
Qed.

(** C10. The filter that selects what is uploaded looks at fingerprints
    only.  A record is in the upload set exactly when it is in the index
    and its fingerprint occurs in the missing-hash response.  For every
    fingerprint, the queued payloads together contain as many entries with
    that key as the index has records with that fingerprint when it is
    reported missing, and none otherwise.  So two records under distinct
    logical paths that share a fingerprint are both in the upload set, with
    at least two payload entries of that key, or neither is. *)
Theorem dedup_by_fingerprint {cst : Constants} (missingHashes : list string)
    (fileMap : FileMap) :
  let fs := JsMap.values fileMap in
  let payloads := bucketPayloads (planBuckets (sortedFiles missingHashes fs)) in
  let copies h := length (filter (λ p, key p = h) (concat payloads)) in
  (∀ file,
      file ∈ sortedFiles missingHashes fs
      ↔ file ∈ fs ∧ hash file ∈ missingHashes)
  ∧ (∀ h,
       copies h
       = if bool_decide (h ∈ missingHashes)
         then length (filter (λ file, hash file = h) fs)
         else 0)
  ∧ (∀ path1 file1 path2 file2,
       (path1, file1) ∈ fileMap → (path2, file2) ∈ fileMap →
       path1 ≠ path2 → hash file1 = hash file2 →
       if bool_decide (hash file1 ∈ missingHashes)
       then file1 ∈ sortedFiles missingHashes fs
            ∧ file2 ∈ sortedFiles missingHashes fs
            ∧ 2 ≤ copies (hash file1)
       else (file1 ∉ sortedFiles missingHashes fs)
            ∧ (file2 ∉ sortedFiles missingHashes fs)
            ∧ copies (hash file1) = 0).
Proof.
  intros fs payloads copies.
  assert (∀ file, file ∈ sortedFiles missingHashes fs
                  ↔ file ∈ fs ∧ hash file ∈ missingHashes) as Hset.
  { intros file. rewrite sortedFiles_perm. apply elem_of_uploadSet. }
  split_and!; [done|intros h; apply payload_copies|].
  intros path1 file1 path2 file2 Hin1 Hin2 Hne Hhash.
  assert (file1 ∈ fs ∧ file2 ∈ fs) as [Hfs1 Hfs2].
  { split; apply list_elem_of_fmap; [by exists (path1, file1)|by exists (path2, file2)]. }
  unfold copies, payloads. rewrite payload_copies.
  case_bool_decide as Hmissing.
  - split_and!; [apply Hset; by split|apply Hset; split; [done|by rewrite <- Hhash]|].
    by apply (two_entries_counted (λ file, hash file = hash file1)
                fileMap path1 file1 path2 file2).
  - split_and!; [| |done].
    + intros [_ ?]%Hset. done.
    + intros [_ ?]%Hset. apply Hmissing. by rewrite Hhash.
Qed.

Lemma dedup_by_fingerprint_witness :
  let fs := JsMap.values Sample.siteIndex in
  let missing := ["7478743d384762735647610000000000"] in
  let payloads :=
    bucketPayloads
      (planBuckets (cst := Sample.constants) (sortedFiles missing fs)) in
  2 ≤ length (filter (λ p, key p = "7478743d384762735647610000000000")
                (concat payloads)).
Proof.
  intros fs missing payloads.
  destruct (dedup_by_fingerprint (cst := Sample.constants) missing
              Sample.siteIndex) as (_ & _ & Hpair).
  specialize (Hpair "index.txt" _ "copy.txt" _
                ltac:(by apply list_elem_of_here)
                ltac:(by do 2 apply list_elem_of_further; apply list_elem_of_here)
                ltac:(done) eq_refl).
  rewrite bool_decide_eq_true_2 in Hpair
    by (by apply list_elem_of_here).
  apply Hpair.
Defined.

(** ** Symbolic links and entry names: what the walk does *)

(** C8. The walk of a directory that holds a regular file, a symbolic link
    to a file outside it and a symbolic link to a directory outside it
    indexes the targets of both links: [stat] describes the target of a
    link, so the test [isSymbolicLink()] never holds on its result (while
    [lstat] would report the link). *)
Theorem walk_follows_symbolic_links :
  match walk (pkg := Sample.packages) Sample.linked "dist" [] 0 with
  | inr fileMap => map (λ '(name, file), (name, content file)) fileMap
  | inl _ => []
  end
  = [("a.txt", Base64.encode (bytes_of_string "a"));
     ("secret.txt", Base64.encode (bytes_of_string "key"));
     ("shared/b.txt", Base64.encode (bytes_of_string "b"))]
  ∧ (∀ path e filestat,
       stat path e = inr filestat → isSymbolicLink filestat = false)
  ∧ (∀ target, ∃ filestat,
       lstat (Symlink target) = inr filestat
       ∧ isSymbolicLink filestat = true).
Proof.
  split_and!; [reflexivity|apply stat_not_symlink|].
  intros target. eexists. split; reflexivity.
Qed.

(** C9. Below the top level the key is the path of the file with its first
    segment removed.  For the root ["out/dist"] the file [css/site.css] is
    stored under ["dist/css/site.css"]; for the root ["."] the files
    [x.txt] and [sub/x.txt] are both stored under ["x.txt"], so the index
    keeps one record for the two.  For the one-segment root ["dist"] the
    keys are the paths relative to the root. *)
Theorem walk_keys_drop_first_segment :
  let keys_of directory root :=
    match walk (pkg := Sample.packages) root directory [] 0 with
    | inr fileMap => JsMap.keys fileMap
    | inl _ => []
    end in
  keys_of "out/dist" Sample.site = ["index.txt"; "dist/css/site.css"; "copy.txt"]
  ∧ keys_of "." Sample.shadowed = ["x.txt"]
  ∧ keys_of "dist" Sample.site = ["index.txt"; "css/site.css"; "copy.txt"]
  ∧ keys_of "dist" Sample.shadowed = ["x.txt"; "sub/x.txt"].
Proof. split_and!; reflexivity. Qed.

(** ** Requests and their traces *)

Section Effects.
Context {R : Type}.
Implicit Types (w : World R).

Lemma fetchResult_cases {A} req (endpoint : R → (option Z + A) * R) w :
  (∃ a s,
      endpoint (remote w) = (inr a, s)
      ∧ fetchResult req endpoint w
        = (inr a, {| remote := s; jwt := jwt w;
                     trace := trace w ++ [Fetch req Resolved] |}))
  ∨ (∃ code s,
       endpoint (remote w) = (inl code, s)
       ∧ fetchResult req endpoint w
         = (inl (FetchError code),
            {| remote := s; jwt := jwt w;
               trace := trace w ++ [Fetch req (Rejected code)] |})).
Proof.
  unfold fetchResult. destruct (endpoint (remote w)) as [[code|a] s].
  - right. by exists code, s.
  - left. by exists a, s.
Qed.

Lemma since_app w w' tr : trace w' = trace w ++ tr → since w w' = tr.
Proof. intros Heq. unfold since. by rewrite Heq, drop_app_length. Qed.

End Effects.

(** ** The hash upsert *)

Section Finalizer.
Context {R : Type} {api : Remote R}.
Variables (accountId projectName : string).

Lemma upsertOrWarn_trace (fs : list FileContainer) (w : World R) :
  let r := upsertOrWarn accountId projectName fs w in
  let commit j out := Fetch (UpsertHashes j (map hash fs)) out in
  let refresh out := Fetch (FetchJwt accountId projectName) out in
  ∃ tr,
    r.1 = inr ()
    ∧ trace r.2 = trace w ++ tr
    ∧ (tr = [commit (jwt w) Resolved]
       ∨ (∃ code out,
            code ≠ Some 8000013%Z
            ∧ tr = [commit (jwt w) (Rejected code); Sleep 1000;
                    commit (jwt w) out] ++ warningAfter out)
       ∨ (∃ out,
            tr = [commit (jwt w) (Rejected (Some 8000013%Z)); Sleep 1000;
                  refresh Resolved; commit (jwt r.2) out] ++ warningAfter out)
       ∨ (∃ code,
            tr = [commit (jwt w) (Rejected (Some 8000013%Z)); Sleep 1000;
                  refresh (Rejected code); Warn UPSERT_FAILED])).
Proof.
  unfold upsertOrWarn, doUpsertHashes, postUpsertHashes, refreshJwt, fetchJwt,
    tryCatch, bind, getJwt, setJwt, warn, sleep, emit, fetchResult.
  simpl.
  destruct (remote_upsertHashes (jwt w) (map hash fs) (remote w))
    as [[code|[]] s1]; simpl.
  2: { eexists. split_and!; [reflexivity..|]. by left. }
  unfold jwt_expired. simpl. case_bool_decide as Hexpired; simpl.
  - subst code.
    destruct (remote_uploadToken accountId projectName s1)
      as [[code'|j'] s2]; simpl.
    + eexists. split_and!; [reflexivity|rewrite <- !app_assoc; reflexivity|].
      do 3 right. by exists code'.
    + destruct (remote_upsertHashes j' (map hash fs) s2)
        as [[code2|[]] s3]; simpl.
      * eexists. split_and!; [reflexivity|rewrite <- !app_assoc; reflexivity|].
        right; right; left. by exists (Rejected code2).
      * eexists. split_and!; [reflexivity|rewrite <- !app_assoc; reflexivity|].
        right; right; left. by exists Resolved.
  - destruct (remote_upsertHashes (jwt w) (map hash fs) s1)
      as [[code2|[]] s3]; simpl.
    + eexists. split_and!; [reflexivity|rewrite <- !app_assoc; reflexivity|].
      right; left. by exists code, (Rejected code2).
    + eexists. split_and!; [reflexivity|rewrite <- !app_assoc; reflexivity|].
      right; left. by exists code, Resolved.
Qed.

End Finalizer.

(** C7, as stated, fails when the token cannot be refreshed: the first
    upsert is rejected with code 8000013, fetching a new token is rejected
    as well, and the upsert is not attempted a second time.  The run still
    returns the manifest, with the warning. *)
Lemma upsert_not_retried_when_refresh_fails :
  let r :=
    run (upload (cst := Sample.constants) (pkg := Sample.packages)
           (api := Sample.server) "account" "project" "dist" Sample.site)
        (Sample.fresh [None; None; None; None; None;
                       Some (Some 8000013%Z); Some None]) in
  r.1 = inr (manifestOf Sample.siteIndex)
  ∧ upsertOutcomes (trace r.2) = [Rejected (Some 8000013%Z)]
  ∧ drop 6 (trace r.2)
    = [Sleep 1000; Fetch (FetchJwt "account" "project") (Rejected None);
       Warn UPSERT_FAILED].
Proof. split_and!; reflexivity. Qed.

(** C7, amended.  The hash upsert never fails the run.  When the first call
    is accepted nothing else happens.  When it is rejected there is a wait
    of 1000 ms; if the rejection carries code 8000013 a new token is
    fetched; then the call is made once more, with the token then current,
    and a rejection of this second call only produces the warning.  If the
    token cannot be fetched there is no second call, only the warning.  In
    every case, once the bucket uploads have succeeded, [upload] returns
    the manifest of the whole index. *)
Theorem finalizer_policy {cst : Constants} {R : Type} {api : Remote R}
    (accountId projectName : string) (fs : list FileContainer) (w : World R) :
  let r := upsertOrWarn accountId projectName fs w in
  let new := since w r.2 in
  let commit j out := Fetch (UpsertHashes j (map hash fs)) out in
  let refresh out := Fetch (FetchJwt accountId projectName) out in
  r.1 = inr ()
  ∧ trace r.2 = trace w ++ new
  ∧ (new = [commit (jwt w) Resolved]
     ∨ (∃ code out,
          code ≠ Some 8000013%Z
          ∧ new = [commit (jwt w) (Rejected code); Sleep 1000;
                   commit (jwt w) out] ++ warningAfter out)
     ∨ (∃ out,
          new = [commit (jwt w) (Rejected (Some 8000013%Z)); Sleep 1000;
                 refresh Resolved; commit (jwt r.2) out] ++ warningAfter out)
     ∨ (∃ code,
          new = [commit (jwt w) (Rejected (Some 8000013%Z)); Sleep 1000;
                 refresh (Rejected code); Warn UPSERT_FAILED]))
  ∧ (∀ fileMap w0,
       fs = JsMap.values fileMap →
       uploadMissing accountId projectName fileMap w0 = (inr (), w) →
       uploadIndexed accountId projectName fileMap w0
       = (inr (manifestOf fileMap), r.2)).
Proof.
  intros r new commit refresh.
  destruct (upsertOrWarn_trace accountId projectName fs w)
    as (tr & Hok & Htrace & Hshape).
  fold r in Hok, Htrace, Hshape.
  assert (new = tr) as -> by (by apply since_app).
  split_and!; [done..|].
  intros fileMap w0 -> Hmissing. unfold uploadIndexed, bind.
  rewrite Hmissing. fold r. destruct r as [[e|[]] w']; [done|done].
Qed.

Lemma finalizer_policy_witness :
  uploadIndexed (cst := Sample.constants) (api := Sample.server)
    "account" "project" Sample.siteIndex
    {| remote := Sample.fresh [None; None; None; None; None;
                               Some (Some 8000013%Z); None; Some None];
       jwt := ""; trace := [] |}
  = (inr (manifestOf Sample.siteIndex),
     (upsertOrWarn (api := Sample.server) "account" "project"
        (JsMap.values Sample.siteIndex)
        (uploadMissing (cst := Sample.constants) (api := Sample.server)
           "account" "project" Sample.siteIndex
           {| remote := Sample.fresh [None; None; None; None; None;
                                      Some (Some 8000013%Z); None; Some None];
              jwt := ""; trace := [] |}).2).2).
Proof.
  apply (finalizer_policy (cst := Sample.constants) (api := Sample.server));
    reflexivity.
Defined.

(** ** Retries of a batch upload *)

Lemma sleeps_fetch req out tr : sleeps (Fetch req out :: tr) = sleeps tr.
Proof. reflexivity. Qed.

Lemma sleeps_sleep ms tr : sleeps (Sleep ms :: tr) = ms :: sleeps tr.
Proof. reflexivity. Qed.

Lemma uploadOutcomes_upload j payload out tr :
  uploadOutcomes (Fetch (Upload j payload) out :: tr) = out :: uploadOutcomes tr.
Proof. reflexivity. Qed.

Lemma uploadOutcomes_sleep ms tr :
  uploadOutcomes (Sleep ms :: tr) = uploadOutcomes tr.
Proof. reflexivity. Qed.

Lemma uploadOutcomes_fetchJwt a p out tr :
  uploadOutcomes (Fetch (FetchJwt a p) out :: tr) = uploadOutcomes tr.
Proof. reflexivity. Qed.

Lemma last_cons_Some {A} (x y : A) l : last l = Some y → last (x :: l) = Some y.
Proof. intros Hl. by rewrite last_cons, Hl. Qed.

Section Retry.
Context {cst : Constants} {R : Type} {api : Remote R}.
Variables (accountId projectName : string) (payload : list UploadPayloadFile).

Local Abbreviation Policy := (RetryPolicy accountId projectName payload).

(** Every run of [doUploadFrom] follows the policy. *)
Lemma doUploadFrom_policy budget n (w : World R) r w' :
  MAX_UPLOAD_ATTEMPTS ≤ budget + n →
  doUploadFrom accountId projectName budget payload n w = (r, w') →
  ∃ tr, trace w' = trace w ++ tr ∧ Policy n tr r.
Proof.
  revert n w. induction budget as [|budget IH]; intros n w Hbudget; simpl;
    unfold tryCatch, postUpload, refreshJwt, fetchJwt, bind, getJwt, setJwt,
      sleep, emit, throw, ret, fetchResult; simpl;
    destruct (remote_upload (jwt w) payload (remote w)) as [[code|[]] s1];
    simpl.
  - rewrite bool_decide_eq_false_2 by lia. intros [= <- <-]. simpl.
    eexists. split; [reflexivity|]. apply policy_exhausted. lia.
  - intros [= <- <-]. simpl. eexists. split; [reflexivity|].
    apply policy_accepted.
  - case_bool_decide as Hn.
    + unfold jwt_expired. simpl. case_bool_decide as Hexpired; simpl.
      * subst code.
        destruct (remote_uploadToken accountId projectName s1)
          as [[code'|j'] s2]; simpl.
        -- intros [= <- <-]. simpl. eexists.
           split; [rewrite <- !app_assoc; reflexivity|].
           by apply policy_refresh_failed.
        -- intros Hrec. apply IH in Hrec as (tr & Htrace & Hpolicy); [|lia].
           simpl in Htrace. rewrite <- !app_assoc in Htrace.
           eexists. split; [exact Htrace|]. by apply policy_refresh.
      * intros Hrec. apply IH in Hrec as (tr & Htrace & Hpolicy); [|lia].
        simpl in Htrace. rewrite <- !app_assoc in Htrace.
        eexists. split; [exact Htrace|]. by apply policy_retry.
    + intros [= <- <-]. simpl. eexists. split; [reflexivity|].
      apply policy_exhausted. lia.
  - intros [= <- <-]. simpl. eexists. split; [reflexivity|].
    apply policy_accepted.
Qed.

(** What the policy implies for the waits, the number of attempts and the
    error. *)
Lemma policy_facts n tr r :
  Policy n tr r →
  ∃ k,
    sleeps tr = map (λ i, Z.of_nat i * 1000)%Z (seq n k)
    ∧ (k = 0 ∨ n + k ≤ MAX_UPLOAD_ATTEMPTS)
    ∧ length (uploadOutcomes tr) ≤ S k
    ∧ (∀ e, r = inl e →
         ∃ code,
           e = FetchError code
           ∧ (last tr
              = Some (Fetch (FetchJwt accountId projectName) (Rejected code))
              ∨ (MAX_UPLOAD_ATTEMPTS ≤ n + k
                 ∧ length (uploadOutcomes tr) = S k
                 ∧ ∃ j, last tr
                        = Some (Fetch (Upload j payload) (Rejected code))))).
Proof.
  induction 1 as [n j|n j code Hn|n j code tr r Hn Hcode _ IH
                 |n j tr r Hn _ IH|n j code Hn].
  - exists 0. split_and!; [done|by left|simpl; lia|done].
  - exists 0. split_and!; [done|by left|simpl; lia|].
    intros e [= <-]. exists code. split; [done|]. right.
    split_and!; [lia|done|by exists j].
  - destruct IH as (k & Hsleeps & Hk & Hlen & Herr). exists (S k).
    rewrite sleeps_fetch, sleeps_sleep, uploadOutcomes_upload,
      uploadOutcomes_sleep, Hsleeps.
    split_and!; [done|right; lia|simpl; lia|].
    intros e He. destruct (Herr e He) as (c & -> & Hlast). exists c.
    split; [done|]. destruct Hlast as [Hlast|(Hmax & Hlen' & j' & Hlast)].
    + left. by do 2 apply last_cons_Some.
    + right. split_and!; [lia|simpl; lia|].
      exists j'. by do 2 apply last_cons_Some.
  - destruct IH as (k & Hsleeps & Hk & Hlen & Herr). exists (S k).
    rewrite sleeps_fetch, sleeps_sleep, sleeps_fetch, uploadOutcomes_upload,
      uploadOutcomes_sleep, uploadOutcomes_fetchJwt, Hsleeps.
    split_and!; [done|right; lia|simpl; lia|].
    intros e He. destruct (Herr e He) as (c & -> & Hlast). exists c.
    split; [done|]. destruct Hlast as [Hlast|(Hmax & Hlen' & j' & Hlast)].
    + left. by do 3 apply last_cons_Some.
    + right. split_and!; [lia|simpl; lia|].
      exists j'. by do 3 apply last_cons_Some.
  - exists 1. split_and!; [done|right; lia|simpl; lia|].
    intros e [= <-]. exists code. split; [done|]. by left.
Qed.

End Retry.

(** C4, as stated, fails at the attempt bound: with [MAX_UPLOAD_ATTEMPTS]
    at 5, a batch whose first five attempts are rejected is attempted a
    sixth time, and when that attempt is accepted no error is propagated. *)
Lemma upload_accepted_after_five_rejections :
  let r :=
    run (doUpload (cst := Sample.constants) (api := Sample.server)
           "account" "project" [payloadOf (Sample.blob "h1" 10)])
        (Sample.fresh (replicate 5 (Some None))) in
  MAX_UPLOAD_ATTEMPTS (Constants := Sample.constants) = 5
  ∧ r.1 = inr ()
  ∧ uploadOutcomes (trace r.2) = replicate 5 (Rejected None) ++ [Resolved]
  ∧ sleeps (trace r.2) = [0; 1000; 2000; 3000; 4000]%Z.
Proof. split_and!; reflexivity. Qed.

(** C4, amended.  A batch upload follows [RetryPolicy] from its first
    attempt: a rejected attempt is retried as long as fewer than
    [MAX_UPLOAD_ATTEMPTS] retries have been started, after a wait of
    (number of retries started so far) × 1000 ms, hence 0 ms before the
    first retry, and after fetching a new token when the rejection carries
    code 8000013.  So the waits are 0, 1000, 2000, ... for at most
    [MAX_UPLOAD_ATTEMPTS] retries, and at most [MAX_UPLOAD_ATTEMPTS + 1]
    attempts are made.  An error is propagated only when fetching the token
    fails, or when attempt number [MAX_UPLOAD_ATTEMPTS + 1] is rejected, and
    it is then the error of that last call. *)
Theorem upload_retry_policy {cst : Constants} {R : Type} {api : Remote R}
    (accountId projectName : string) (payload : list UploadPayloadFile)
    (w : World R) :
  let r := doUpload accountId projectName payload w in
  let new := since w r.2 in
  trace r.2 = trace w ++ new
  ∧ RetryPolicy accountId projectName payload 0 new r.1
  ∧ (∃ retries,
       retries ≤ MAX_UPLOAD_ATTEMPTS
       ∧ sleeps new = map (λ i, Z.of_nat i * 1000)%Z (seq 0 retries)
       ∧ length (uploadOutcomes new) ≤ S retries)
  ∧ (∀ e, r.1 = inl e →
       ∃ code,
         e = FetchError code
         ∧ (last new
            = Some (Fetch (FetchJwt accountId projectName) (Rejected code))
            ∨ (length (uploadOutcomes new) = S MAX_UPLOAD_ATTEMPTS
               ∧ ∃ j, last new
                      = Some (Fetch (Upload j payload) (Rejected code))))).
Proof.
  intros r new.
  destruct (doUploadFrom_policy accountId projectName payload
              MAX_UPLOAD_ATTEMPTS 0 w r.1 r.2) as (tr & Htrace & Hpolicy).
  { lia. }
  { unfold r, doUpload. by destruct (doUploadFrom _ _ _ _ _ _). }
  assert (new = tr) as -> by (by apply since_app).
  destruct (policy_facts _ _ _ _ _ _ Hpolicy)
    as (k & Hsleeps & Hk & Hlen & Herr).
  split_and!; [done|done| |].
  - exists k. split_and!; [lia|done|done].
  - intros e He. destruct (Herr e He) as (code & -> & Hlast).
    exists code. split; [done|].
    destruct Hlast as [Hlast|(Hmax & Hlen' & Hlast)]; [by left|].
    right. split; [|done]. rewrite Hlen'. f_equal. lia.
Qed.

Lemma upload_retry_policy_witness :
  let r :=
    run (doUpload (cst := Sample.constants) (api := Sample.refusing None)
           "account" "project" [payloadOf (Sample.blob "h1" 10)])
        (Sample.fresh []) in
  ∃ code,
    r.1 = inl (FetchError code)
    ∧ length (uploadOutcomes (trace r.2)) = 6.
Proof.
  intros r.
  destruct (upload_retry_policy (cst := Sample.constants)
              (api := Sample.refusing None) "account" "project"
              [payloadOf (Sample.blob "h1" 10)]
              {| remote := Sample.fresh []; jwt := ""; trace := [] |})
    as (_ & _ & _ & Herr).
  destruct (Herr (FetchError None) eq_refl) as (code & _ & Hlast).
  exists None. split; [reflexivity|].
  destruct Hlast as [Hlast|[Hlen _]]; [discriminate Hlast|exact Hlen].
Defined.

(** * Further properties of the Pages command *)

(** ** Order inside the buckets *)

Lemma insertSorted_largestFirst file fs :
  largestFirst fs → largestFirst (insertSorted bySizeDescending file fs).
Proof.
  induction fs as [|y r IH]; simpl; [done|].
  intros [Hy Hr]. unfold bySizeDescending at 1.
  destruct (Z.ltb_spec 0 (sizeInBytes y - sizeInBytes file)) as [Hlt|Hle];
    simpl.
  - split; [|by apply IH].
    rewrite insertSorted_perm. apply Forall_cons. split; [|done].
    unfold noSmallerThan. lia.
  - split_and!; [|done..]. apply Forall_cons. split.
    + unfold noSmallerThan. lia.
    + eapply Forall_impl; [exact Hy|]. unfold noSmallerThan. intros z ?. lia.
Qed.

Lemma sortedFiles_largestFirst missingHashes fs :
  largestFirst (sortedFiles missingHashes fs).
Proof.
  unfold sortedFiles, sortBy.
  induction (uploadSet missingHashes fs) as [|file r IH]; simpl; [done|].
  by apply insertSorted_largestFirst.
Qed.

Lemma largestFirst_snoc fs file :
  largestFirst fs → Forall (λ f, noSmallerThan f file) fs →
  largestFirst (fs ++ [file]).
Proof.
  induction fs as [|f r IH]; simpl; [done|].
  intros [Hf Hr] [Hff Hrf]%Forall_cons. split; [|by apply IH].
  apply Forall_app. split; [done|]. by apply Forall_singleton.
Qed.

Lemma Forall_alter_weaken {A} (P Q : A → Prop) (f : A → A) i (l : list A) :
  Forall P l → (∀ x, P x → Q x) → (∀ x, P x → Q (f x)) →
  Forall Q (alter f i l).
Proof.
  intros Hl HPQ Hf. revert i.
  induction Hl as [|x r Hx Hr IH]; intros [|i]; simpl; [done..| |].
  - apply Forall_cons. split; [by apply Hf|].
    eapply Forall_impl; [exact Hr|done].
  - apply Forall_cons. split; [by apply HPQ|apply IH].
Qed.

Section BucketOrder.
Context {cst : Constants}.

Lemma placeFile_ordered buckets bucketOffset file rest :
  Forall (noSmallerThan file) rest →
  Forall (orderedBefore (file :: rest)) buckets →
  Forall (orderedBefore rest) (placeFile buckets bucketOffset file).
Proof.
  intros Hfile Hall.
  assert (∀ fs, Forall (λ f, Forall (noSmallerThan f) (file :: rest)) fs →
                Forall (λ f, Forall (noSmallerThan f) rest) fs
                ∧ Forall (λ f, noSmallerThan f file) fs) as Hsplit.
  { intros fs Hfs. split; (eapply Forall_impl; [exact Hfs|]); simpl;
      intros f Hf; by apply Forall_cons in Hf as [? ?]. }
  assert (∀ b, orderedBefore (file :: rest) b → orderedBefore rest b) as Hweak.
  { intros b [Hs Hb]. split; [done|]. by apply Hsplit. }
  unfold placeFile. destruct (findBucket _ _ _ _ _) as [idx|].
  - eapply Forall_alter_weaken; [exact Hall|done|].
    intros b [Hs Hb]. apply Hsplit in Hb as [Hrest Hlast].
    split; simpl.
    + by apply largestFirst_snoc.
    + apply Forall_app. split; [done|]. by apply Forall_singleton.
  - apply Forall_app. split; [eapply Forall_impl; [exact Hall|done]|].
    apply Forall_singleton. split; simpl; [by split|].
    by apply Forall_singleton.
Qed.

Lemma fillBuckets_ordered sorted buckets bucketOffset :
  largestFirst sorted →
  Forall (orderedBefore sorted) buckets →
  Forall (orderedBefore []) (fillBuckets buckets bucketOffset sorted).
Proof.
  revert buckets bucketOffset.
  induction sorted as [|file rest IH]; intros buckets bucketOffset; simpl;
    [done|].
  intros [Hfile Hrest] Hall. apply IH; [done|]. by apply placeFile_ordered.
Qed.

End BucketOrder.

(** X1. In every bucket of the plan the files are ordered by size, larger
    files first: no file of a bucket is larger than a file before it. *)
Theorem buckets_hold_larger_files_first {cst : Constants}
    (missingHashes : list string) (fs : list FileContainer) :
  Forall (λ bucket, largestFirst (files bucket))
         (planBuckets (sortedFiles missingHashes fs)).
Proof.
  eapply Forall_impl.
  - apply fillBuckets_ordered; [apply sortedFiles_largestFirst|].
    apply Forall_replicate. split; simpl; done.
  - by intros bucket [? _].
Qed.

(** ** The rotating scan *)

Lemma rotation_covers len bucketOffset idx :
  idx < len → ∃ k, k < len ∧ (k + bucketOffset) `mod` len = idx.
Proof.
  intros Hidx.
  exists ((idx + (len - bucketOffset `mod` len)) `mod` len).
  assert (len ≠ 0) as Hlen by lia.
  split; [by apply Nat.mod_upper_bound|].
  rewrite Nat.Div0.add_mod_idemp_l.
  pose proof (Nat.mod_upper_bound bucketOffset len Hlen) as Hlt.
  pose proof (Nat.div_mod_eq bucketOffset len) as Hdiv.
  replace (idx + (len - bucketOffset `mod` len) + bucketOffset)
    with (idx + (1 + bucketOffset `div` len) * len) by nia.
  rewrite Nat.Div0.mod_add. by apply Nat.mod_small.
Qed.

Section FirstFit.
Context {cst : Constants}.

Lemma findBucket_None buckets bucketOffset file todo i :
  findBucket buckets bucketOffset file todo i = None →
  ∀ k bucket,
    i ≤ k < i + todo →
    buckets !! ((k + bucketOffset) `mod` length buckets) = Some bucket →
    fits file bucket = false.
Proof.
  revert i. induction todo as [|todo IH]; intros i; simpl; [lia|].
  destruct (buckets !! ((i + bucketOffset) `mod` length buckets))
    as [b|] eqn:Hlook.
  - destruct (fits file b) eqn:Hfits; [done|].
    intros Hrec k bucket Hk Hb. destruct (decide (k = i)) as [->|Hne].
    + rewrite Hlook in Hb. by injection Hb as <-.
    + apply (IH _ Hrec k); [lia|done].
  - intros _ k bucket Hk Hb.
    apply lookup_ge_None in Hlook. apply lookup_lt_Some in Hb.
    assert (length buckets ≠ 0) as Hlen by lia.
    pose proof (Nat.mod_upper_bound (i + bucketOffset) _ Hlen). lia.
Qed.

Lemma findBucket_finds buckets bucketOffset file bucket :
  bucket ∈ buckets → fits file bucket = true →
  ∃ idx, findBucket buckets bucketOffset file (length buckets) 0 = Some idx.
Proof.
  intros [idx Hidx]%list_elem_of_lookup Hfits.
  destruct (findBucket buckets bucketOffset file (length buckets) 0)
    as [found|] eqn:Hfind; [by exists found|].
  destruct (rotation_covers (length buckets) bucketOffset idx)
    as (k & Hk & Hrot); [by eapply lookup_lt_Some|].
  rewrite (findBucket_None _ _ _ _ _ Hfind k bucket) in Hfits;
    [done|lia|by rewrite Hrot].
Qed.

End FirstFit.

(** X2. The scan over the buckets, though it starts at a rotating offset,
    looks at every bucket: a file that fits into some existing bucket goes
    into an existing bucket that fits, and no bucket is added. *)
Theorem placeFile_uses_a_fitting_bucket {cst : Constants}
    (buckets : list Bucket) (bucketOffset : nat) (file : FileContainer)
    (bucket : Bucket) :
  bucket ∈ buckets → fits file bucket = true →
  ∃ idx target,
    buckets !! idx = Some target
    ∧ fits file target = true
    ∧ placeFile buckets bucketOffset file
      = <[idx := pushFile file target]> buckets
    ∧ length (placeFile buckets bucketOffset file) = length buckets.
Proof.
  intros Hin Hfits.
  destruct (findBucket_finds buckets bucketOffset file bucket Hin Hfits)
    as [idx Hfind].
  destruct (findBucket_Some _ _ _ _ _ _ Hfind) as (target & Hlook & Htarget).
  exists idx, target. unfold placeFile. rewrite Hfind.
  split_and!; [done|done| |by rewrite length_alter].
  apply list_eq. intros j. destruct (decide (j = idx)) as [->|Hne].
  - rewrite list_lookup_alter_eq, Hlook. simpl.
    rewrite list_lookup_insert_eq; [done|by eapply lookup_lt_Some].
  - by rewrite list_lookup_alter_ne, list_lookup_insert_ne.
Qed.

Lemma placeFile_uses_a_fitting_bucket_witness :
  ∃ idx target,
    planBuckets (cst := Sample.tiny) [Sample.blob "h2" MAX_FILE_SIZE] !! idx
    = Some target
    ∧ fits (cst := Sample.tiny) (Sample.blob "h5" 7) target = true
    ∧ placeFile (cst := Sample.tiny)
        (planBuckets (cst := Sample.tiny) [Sample.blob "h2" MAX_FILE_SIZE])
        4 (Sample.blob "h5" 7)
      = <[idx := pushFile (Sample.blob "h5" 7) target]>
          (planBuckets (cst := Sample.tiny) [Sample.blob "h2" MAX_FILE_SIZE])
    ∧ length (placeFile (cst := Sample.tiny)
                (planBuckets (cst := Sample.tiny)
                   [Sample.blob "h2" MAX_FILE_SIZE])
                4 (Sample.blob "h5" 7))
      = length (planBuckets (cst := Sample.tiny)
                  [Sample.blob "h2" MAX_FILE_SIZE]).
Proof.
  apply (placeFile_uses_a_fitting_bucket (cst := Sample.tiny) _ 4 _
           {| files := []; remainingSize := MAX_FILE_SIZE |}).
  - apply list_elem_of_further, list_elem_of_here.
  - reflexivity.
Defined.

(** ** Few files *)

Section FewFiles.
Context {cst : Constants}.

Local Abbreviation emptyBucket :=
  {| files := []; remainingSize := MAX_BUCKET_SIZE |}.

Lemma placeFile_next_empty placed file spare :
  0 < MAX_BUCKET_FILE_COUNT →
  (sizeInBytes file ≤ MAX_BUCKET_SIZE)%Z →
  placeFile (map ownBucket placed ++ replicate (S spare) emptyBucket)
    (length placed) file
  = map ownBucket (placed ++ [file]) ++ replicate spare emptyBucket.
Proof.
  intros Hcount Hsize. unfold placeFile.
  set (buckets := map ownBucket placed ++ replicate (S spare) emptyBucket).
  assert (length buckets = length placed + S spare) as Hlen.
  { unfold buckets. by rewrite length_app, length_map, length_replicate. }
  assert (findBucket buckets (length placed) file (length buckets) 0
          = Some (length placed)) as ->.
  { rewrite Hlen at 1. rewrite Nat.add_succ_r. simpl.
    rewrite Hlen, Nat.mod_small by lia.
    unfold buckets. rewrite lookup_app_r by (by rewrite length_map).
    rewrite length_map, Nat.sub_diag. simpl.
    unfold fits. simpl.
    destruct (Z.leb_spec (sizeInBytes file) MAX_BUCKET_SIZE); [|lia].
    by rewrite bool_decide_eq_true_2. }
  unfold buckets.
  rewrite <- (length_map ownBucket placed) at 1.
  rewrite <- (Nat.add_0_r (length (map ownBucket placed))).
  rewrite alter_app_r. simpl. rewrite map_app, <- app_assoc. done.
Qed.

Lemma fillBuckets_few rest placed spare :
  0 < MAX_BUCKET_FILE_COUNT →
  Forall (λ file, (sizeInBytes file ≤ MAX_BUCKET_SIZE)%Z) rest →
  fillBuckets
    (map ownBucket placed ++ replicate (length rest + spare) emptyBucket)
    (length placed) rest
  = map ownBucket (placed ++ rest) ++ replicate spare emptyBucket.
Proof.
  intros Hcount. revert placed.
  induction rest as [|file rest IH]; intros placed Hsizes; simpl.
  - by rewrite app_nil_r.
  - apply Forall_cons in Hsizes as [Hfile Hrest].
    change (emptyBucket :: replicate (length rest + spare) emptyBucket)
      with (replicate (S (length rest + spare)) emptyBucket).
    rewrite placeFile_next_empty by done.
    replace (S (length placed)) with (length (placed ++ [file]))
      by (rewrite length_app; simpl; lia).
    rewrite IH by done. by rewrite <- app_assoc.
Qed.

End FewFiles.

(** X3. When the upload set has at most [BULK_UPLOAD_CONCURRENCY] files (each
    one fitting into an empty bucket), every file gets a bucket of its own,
    in order, so each file is sent by a request of its own. *)
Theorem few_files_get_a_bucket_each {cst : Constants}
    (sorted : list FileContainer) :
  length sorted ≤ BULK_UPLOAD_CONCURRENCY →
  0 < MAX_BUCKET_FILE_COUNT →
  Forall (λ file, (sizeInBytes file ≤ MAX_BUCKET_SIZE)%Z) sorted →
  planBuckets sorted
  = map ownBucket sorted
    ++ replicate (BULK_UPLOAD_CONCURRENCY - length sorted)
         {| files := []; remainingSize := MAX_BUCKET_SIZE |}
  ∧ bucketPayloads (planBuckets sorted) = map (λ file, [payloadOf file]) sorted.
Proof.
  intros Hfew Hcount Hsizes.
  assert (planBuckets sorted
          = map ownBucket sorted
            ++ replicate (BULK_UPLOAD_CONCURRENCY - length sorted)
                 {| files := []; remainingSize := MAX_BUCKET_SIZE |}) as Hplan.
  { unfold planBuckets, initialBuckets.
    replace BULK_UPLOAD_CONCURRENCY
      with (length sorted + (BULK_UPLOAD_CONCURRENCY - length sorted)) at 1
      by lia.
    by apply (fillBuckets_few sorted []). }
  split; [done|]. rewrite Hplan. unfold bucketPayloads.
  rewrite filter_app, map_app.
  assert (filter (λ bucket, length (files bucket) ≠ 0)
            (replicate (BULK_UPLOAD_CONCURRENCY - length sorted)
               {| files := []; remainingSize := MAX_BUCKET_SIZE |}) = [])
    as ->.
  { clear. induction (BULK_UPLOAD_CONCURRENCY - length sorted) as [|n IHn];
      [done|].
    change (replicate (S n) ?x) with (x :: replicate n x).
    rewrite filter_cons_False; [done|].
    simpl. intros Hne. by apply Hne. }
  rewrite app_nil_r. clear.
  induction sorted as [|file rest IH]; [done|].
  change (map ownBucket (file :: rest))
    with (ownBucket file :: map ownBucket rest).
  rewrite filter_cons_True by (simpl; discriminate).
  simpl. by rewrite IH.
Qed.

Lemma few_files_get_a_bucket_each_witness :
  bucketPayloads
    (planBuckets (cst := Sample.constants)
       (sortedFiles ["7478743d384762735647610000000000"]
          (JsMap.values Sample.siteIndex)))
  = map (λ file, [payloadOf file])
      (sortedFiles ["7478743d384762735647610000000000"]
         (JsMap.values Sample.siteIndex)).
Proof.
  apply (few_files_get_a_bucket_each (cst := Sample.constants)).
  - simpl. lia.
  - simpl. lia.
  - repeat constructor; simpl; lia.
Defined.

(** ** The progress counter *)

Lemma counterAfter_total buckets counter :
  counterAfter buckets counter
  = (counter + Z.of_nat (length (concat (map files buckets))))%Z.
Proof.
  unfold counterAfter. revert counter.
  induction buckets as [|b r IH]; intros counter; simpl; [lia|].
  rewrite IH, length_app. destruct (files b); simpl; lia.
Qed.

(** X4. The counter shown while uploading starts at the number of files
    that need no upload, which is never negative, and once the task of
    every bucket has resolved it equals the number of files of the index. *)
Theorem counter_reaches_total {cst : Constants} (missingHashes : list string)
    (fileMap : FileMap) :
  let sorted := sortedFiles missingHashes (JsMap.values fileMap) in
  (0 ≤ initialCounter fileMap sorted)%Z
  ∧ counterAfter (planBuckets sorted) (initialCounter fileMap sorted)
    = Z.of_nat (JsMap.size fileMap).
Proof.
  intros sorted.
  assert (length sorted ≤ JsMap.size fileMap) as Hle.
  { unfold sorted. rewrite sortedFiles_perm. unfold uploadSet, JsMap.size.
    etrans; [apply length_filter|]. unfold JsMap.values.
    by rewrite length_fmap. }
  split; [unfold initialCounter; lia|].
  rewrite counterAfter_total, planBuckets_perm. unfold initialCounter. lia.
Qed.

(** ** What the bucket uploads leave in the trace *)


Section UploadTrace.
Context {cst : Constants} {R : Type} {api : Remote R}.
Variables (accountId projectName : string).

Lemma policy_acceptedPayloads payload n tr r :
  RetryPolicy accountId projectName payload n tr r →
  acceptedPayloads tr = match r with inr _ => [payload] | inl _ => [] end.
Proof. induction 1; simpl; done. Qed.

Lemma policy_nonempty payload n tr r :
  RetryPolicy accountId projectName payload n tr r → tr ≠ [].
Proof. by destruct 1. Qed.

(** A task either has its payload accepted, once, or ends with the fatal
    error made from the last rejection. *)
Lemma uploadTask_trace bucket (w : World R) r w' :
  uploadTask accountId projectName bucket w = (r, w') →
  ∃ tr,
    trace w' = trace w ++ tr
    ∧ tr ≠ []
    ∧ match r with
      | inr _ => acceptedPayloads tr = [map payloadOf (files bucket)]
      | inl e =>
          acceptedPayloads tr = []
          ∧ ∃ req code,
              last tr = Some (Fetch req (Rejected code))
              ∧ e = FatalError UPLOAD_FAILED (code_or_1 (FetchError code))
      end.
Proof.
  unfold uploadTask, tryCatch, doUpload.
  destruct (doUploadFrom accountId projectName MAX_UPLOAD_ATTEMPTS
              (map payloadOf (files bucket)) 0 w) as [r0 w0] eqn:Hrun.
  apply doUploadFrom_policy in Hrun as (tr & Htrace & Hpolicy); [|lia].
  pose proof (policy_acceptedPayloads _ _ _ _ Hpolicy) as Haccepted.
  pose proof (policy_nonempty _ _ _ _ Hpolicy) as Hne.
  destruct (policy_facts _ _ _ _ _ _ Hpolicy) as (k & _ & _ & _ & Herr).
  destruct r0 as [e0|[]]; intros [= <- <-]; exists tr.
  - split_and!; [done..|].
    destruct (Herr e0 eq_refl) as (code & -> & Hlast).
    destruct Hlast as [Hlast|(_ & _ & j & Hlast)]; eauto.
  - by split_and!.
Qed.




End UploadTrace.




(** X6. When the task of a bucket fails, its last request (an upload, or the
    fetch of a new token) was rejected, nothing of the bucket was accepted,
    and the task rejects with the fatal error "Failed to upload files"
    whose code is the code of that last rejection, or 1 when the rejection
    carries no code or the code 0. *)
Theorem failed_task_reports_last_code {cst : Constants} {R : Type}
    {api : Remote R} (accountId projectName : string) (bucket : Bucket)
    (w w' : World R) (e : exn) :
  uploadTask accountId projectName bucket w = (inl e, w') →
  ∃ req code,
    last (trace w') = Some (Fetch req (Rejected code))
    ∧ e = FatalError UPLOAD_FAILED
            (match code with
             | Some c => if (c =? 0)%Z then 1 else c
             | None => 1
             end)
    ∧ acceptedPayloads (since w w') = [].
Proof.
  intros (tr & Htrace & Hne & Hnone & req & code & Hlast & ->)%uploadTask_trace.
  exists req, code. split_and!.
  - rewrite Htrace, last_app, Hlast. done.
  - done.
  - by rewrite (since_app _ _ _ Htrace).
Qed.

Lemma failed_task_reports_last_code_witness :
  ∃ w',
    uploadTask (cst := Sample.tiny) (api := Sample.refusing (Some 7003%Z))
      "account" "project" (ownBucket (cst := Sample.tiny) (Sample.blob "h1" 10))
      {| remote := Sample.fresh []; jwt := "jwt0"; trace := [] |}
    = (inl (FatalError UPLOAD_FAILED 7003), w').
Proof.
  eexists.
  destruct (uploadTask (cst := Sample.tiny)
              (api := Sample.refusing (Some 7003%Z)) "account" "project"
              (ownBucket (cst := Sample.tiny) (Sample.blob "h1" 10))
              {| remote := Sample.fresh []; jwt := "jwt0"; trace := [] |})
    as [r w'] eqn:Hrun.
  assert (r = inl (FatalError UPLOAD_FAILED 7003)) as ->.
  { by injection Hrun as <- _. }
  destruct (failed_task_reports_last_code (cst := Sample.tiny)
              (api := Sample.refusing (Some 7003%Z)) _ _ _ _ _ _ Hrun)
    as (req & code & _ & _ & _).
  f_equal. by injection Hrun as <-.
Defined.

(** ** The refreshed token *)

(** X7. When the first attempt of a batch is rejected with code 8000013 and
    a new token is obtained, the token replaces the old one without any
    wait, the retry carries the new token, and when the retry is accepted
    the new token stays in place for the requests that follow. *)
Theorem retry_carries_the_new_token {cst : Constants} {R : Type}
    {api : Remote R} (accountId projectName : string)
    (payload : list UploadPayloadFile) (w : World R) (s1 s2 s3 : R)
    (fresh : string) :
  0 < MAX_UPLOAD_ATTEMPTS →
  remote_upload (jwt w) payload (remote w) = (inl (Some 8000013%Z), s1) →
  remote_uploadToken accountId projectName s1 = (inr fresh, s2) →
  remote_upload fresh payload s2 = (inr (), s3) →
  doUpload accountId projectName payload w
  = (inr (),
     {| remote := s3;
        jwt := fresh;
        trace := trace w
                 ++ [Fetch (Upload (jwt w) payload) (Rejected (Some 8000013%Z));
                     Sleep 0;
                     Fetch (FetchJwt accountId projectName) Resolved;
                     Fetch (Upload fresh payload) Resolved] |}).
Proof.
  intros Hmax Hfirst Htoken Hsecond. unfold doUpload.
  destruct MAX_UPLOAD_ATTEMPTS as [|budget] eqn:Hbudget; [lia|].
  simpl.
  unfold tryCatch, postUpload, refreshJwt, fetchJwt, bind, getJwt, setJwt,
    sleep, emit, throw, ret, fetchResult. simpl.
  rewrite Hfirst. simpl.
  rewrite bool_decide_eq_true_2 by lia.
  simpl. rewrite Htoken. simpl.
  destruct budget as [|budget]; simpl;
    unfold tryCatch, postUpload, bind, getJwt, fetchResult; simpl;
    rewrite Hsecond; simpl; by rewrite <- !app_assoc.
Qed.

Lemma retry_carries_the_new_token_witness :
  doUpload (cst := Sample.constants) (api := Sample.server)
    "account" "project" [payloadOf (Sample.blob "h1" 10)]
    {| remote := Sample.fresh [Some (Some 8000013%Z)];
       jwt := "old"; trace := [] |}
  = (inr (),
     {| remote := {| Sample.stored := ["h1"]; Sample.answers := [];
                     Sample.issued := 1 |};
        jwt := "jwt0";
        trace := [Fetch (Upload "old" [payloadOf (Sample.blob "h1" 10)])
                    (Rejected (Some 8000013%Z));
                  Sleep 0;
                  Fetch (FetchJwt "account" "project") Resolved;
                  Fetch (Upload "jwt0" [payloadOf (Sample.blob "h1" 10)])
                    Resolved] |}).
Proof.
  exact (retry_carries_the_new_token (cst := Sample.constants)
           (api := Sample.server) "account" "project"
           [payloadOf (Sample.blob "h1" 10)]
           {| remote := Sample.fresh [Some (Some 8000013%Z)];
              jwt := "old"; trace := [] |}
           (Sample.fresh [])
           {| Sample.stored := []; Sample.answers := []; Sample.issued := 1 |}
           {| Sample.stored := ["h1"]; Sample.answers := [];
              Sample.issued := 1 |}
           "jwt0" ltac:(simpl; lia) eq_refl eq_refl eq_refl).
Defined.

(** ** Nothing to upload *)

Lemma uploadSet_nil missingHashes fs :
  (∀ file, file ∈ fs → hash file ∉ missingHashes) →
  uploadSet missingHashes fs = [].
Proof.
  unfold uploadSet. induction fs as [|f r IH]; intros Hnone; [done|].
  rewrite filter_cons_False by (apply Hnone, list_elem_of_here).
  apply IH. intros file Hin. by apply Hnone, list_elem_of_further.
Qed.

Lemma uploadBuckets_all_empty {cst : Constants} {R : Type} {api : Remote R}
    (accountId projectName : string) (buckets : list Bucket) (w : World R) :
  Forall (λ bucket, files bucket = []) buckets →
  uploadBuckets accountId projectName buckets w = (inr (), w).
Proof.
  induction 1 as [|bucket rest Hempty _ IH]; simpl; [done|].
  unfold bind. rewrite Hempty. simpl. exact IH.
Qed.

Lemma upsertOrWarn_uploads_nothing {R : Type} {api : Remote R}
    (accountId projectName : string) (fs : list FileContainer) (w : World R) :
  ∃ tr,
    (upsertOrWarn accountId projectName fs w).1 = inr ()
    ∧ trace (upsertOrWarn accountId projectName fs w).2 = trace w ++ tr
    ∧ uploadOutcomes tr = [].
Proof.
  destruct (upsertOrWarn_trace accountId projectName fs w)
    as (tr & Hok & Htrace & Hshape).
  exists tr. split_and!; [done..|].
  destruct Hshape as [->|[(code & out & _ & ->)|[(out & ->)|(code & ->)]]];
    try done; by destruct out.
Qed.

(** X8. When the remote side reports none of the fingerprints of the index
    as missing (in particular for an empty directory), the run makes no
    upload request: after the token and the check-missing request it goes
    on to the hash upsert and returns the manifest of the whole index. *)
Theorem nothing_missing_uploads_nothing {cst : Constants} {pkg : Packages}
    {R : Type} {api : Remote R} (accountId projectName directory : string)
    (root : node) (s s1 s2 : R) (fileMap : FileMap) (j : string)
    (missingHashes : list string) :
  walk root directory [] 0 = inr fileMap →
  (Z.of_nat (JsMap.size fileMap) ≤ 20000)%Z →
  remote_uploadToken accountId projectName s = (inr j, s1) →
  remote_checkMissing j (map hash (JsMap.values fileMap)) s1
  = (inr missingHashes, s2) →
  (∀ file, file ∈ JsMap.values fileMap → hash file ∉ missingHashes) →
  let r := run (upload accountId projectName directory root) s in
  r.1 = inr (manifestOf fileMap)
  ∧ uploadOutcomes (trace r.2) = []
  ∧ take 2 (trace r.2)
    = [Fetch (FetchJwt accountId projectName) Resolved;
       Fetch (CheckMissing j (map hash (JsMap.values fileMap))) Resolved].
Proof.
  intros Hwalk Hsize Hjwt Hmissing Hnone.
  unfold run, upload. rewrite Hwalk.
  destruct (Z.ltb_spec 20000 (Z.of_nat (JsMap.size fileMap))); [lia|].
  unfold uploadIndexed, uploadMissing, refreshJwt, fetchJwt, postCheckMissing,
    bind, getJwt, setJwt, ret, fetchResult. simpl.
  rewrite Hjwt. simpl. rewrite Hmissing. simpl.
  unfold sortedFiles. rewrite (uploadSet_nil _ _ Hnone). simpl.
  rewrite uploadBuckets_all_empty
    by (apply Forall_replicate; reflexivity).
  match goal with
  | |- context [upsertOrWarn accountId projectName ?fs ?w0] =>
      destruct (upsertOrWarn_uploads_nothing accountId projectName fs w0)
        as (tr & Hok & Htrace & Huploads);
      destruct (upsertOrWarn accountId projectName fs w0) as [[e|[]] w2]
  end; [done|]. simpl in *.
  split_and!; [done| |].
  - rewrite Htrace. exact Huploads.
  - by rewrite Htrace.
Qed.

Lemma nothing_missing_uploads_nothing_witness :
  let r :=
    run (upload (cst := Sample.constants) (pkg := Sample.packages)
           (api := Sample.server) "account" "project" "dist" Sample.site)
        (Sample.knowing ["7478743d384762735647610000000000";
                         "7373633d3d5166374253656b396d5900"]) in
  r.1 = inr (manifestOf Sample.siteIndex)
  ∧ uploadOutcomes (trace r.2) = []
  ∧ take 2 (trace r.2)
    = [Fetch (FetchJwt "account" "project") Resolved;
       Fetch (CheckMissing "jwt0" (map hash (JsMap.values Sample.siteIndex)))
         Resolved].
Proof.
  apply (nothing_missing_uploads_nothing (cst := Sample.constants)
           (pkg := Sample.packages) (api := Sample.server)
           "account" "project" "dist" Sample.site _
           {| Sample.stored := ["7478743d384762735647610000000000";
                                "7373633d3d5166374253656b396d5900"];
              Sample.answers := []; Sample.issued := 1 |}
           {| Sample.stored := ["7478743d384762735647610000000000";
                                "7373633d3d5166374253656b396d5900"];
              Sample.answers := []; Sample.issued := 1 |}
           Sample.siteIndex "jwt0" []);
    [reflexivity|simpl; lia|reflexivity|reflexivity|].
  intros file _ Hin. by apply elem_of_nil in Hin.
Defined.

(** ** Ignored entries *)

Lemma stats_of_prune n : stats_of (prune n) = stats_of n.
Proof. by destruct n. Qed.

(** X9. Entries whose name is on the ignore list have no influence on the
    index: whenever the walk of a tree succeeds, the walk of the tree
    without those entries (at every level) gives the same index. *)
Theorem ignored_entries_do_not_count {pkg : Packages} (root : node)
    (dir : string) (fileMap : FileMap) (depth : nat) (fileMap' : FileMap) :
  walk root dir fileMap depth = inr fileMap' →
  walk (prune root) dir fileMap depth = inr fileMap'.
Proof.
  revert dir fileMap depth fileMap'.
  induction root as [bytes size|entries IH] using node_induction;
    intros dir fileMap depth fileMap'; [done|].
  simpl. revert fileMap.
  induction IH as [|[file e] rest He _ IHrest]; intros fileMap; [done|].
  simpl.
  destruct (stat (Path.join dir file) e) as [err|filestat] eqn:Hstat; [done|].
  destruct (Str.includes IGNORE_LIST file) eqn:Hignored; [apply IHrest|].
  simpl. rewrite Hignored.
  destruct e as [sub|[sub|]]; cbv beta iota delta [reaches snd] in He;
    simpl in Hstat |- *; [| |done].
  - rewrite stats_of_prune. injection Hstat as <-.
    destruct sub as [bytes size|entries]; simpl.
    + destruct (indexFile _ _ _ _); [done|apply IHrest].
    + destruct (walk (Dir entries) (Path.join dir file) fileMap (S depth))
        as [err|fm] eqn:Hsub; [simpl in Hsub; by rewrite Hsub|].
      pose proof (He _ _ _ _ Hsub) as Hpruned.
      simpl in Hsub, Hpruned. rewrite Hsub, Hpruned. apply IHrest.
  - rewrite stats_of_prune. injection Hstat as <-.
    destruct sub as [bytes size|entries]; simpl.
    + destruct (indexFile _ _ _ _); [done|apply IHrest].
    + destruct (walk (Dir entries) (Path.join dir file) fileMap (S depth))
        as [err|fm] eqn:Hsub; [simpl in Hsub; by rewrite Hsub|].
      pose proof (He _ _ _ _ Hsub) as Hpruned.
      simpl in Hsub, Hpruned. rewrite Hsub, Hpruned. apply IHrest.
Qed.

Lemma ignored_entries_do_not_count_witness :
  walk (pkg := Sample.packages) (prune Sample.site) "dist" [] 0
  = inr Sample.siteIndex.
Proof.
  apply (ignored_entries_do_not_count (pkg := Sample.packages)).
  reflexivity.
Defined.

(** ** Names under a one-segment root *)

Lemma chars_app (s t : string) :
  list_ascii_of_string (s +:+ t)
  = list_ascii_of_string s ++ list_ascii_of_string t.
Proof. induction s as [|c s IH]; simpl; [done|]. by rewrite IH. Qed.

Lemma string_app_assoc (s t u : string) : (s +:+ t) +:+ u = s +:+ (t +:+ u).
Proof.
  induction s as [|c s IH]; [done|].
  change (String c ((s +:+ t) +:+ u) = String c (s +:+ (t +:+ u))).
  by rewrite IH.
Qed.

Lemma concat_cons_cons sep (x y : string) (r : list string) :
  String.concat sep (x :: y :: r) = x +:+ sep +:+ String.concat sep (y :: r).
Proof. reflexivity. Qed.

Lemma concat_snoc (l : list string) (x : string) :
  l ≠ [] → String.concat "/" (l ++ [x]) = String.concat "/" l +:+ "/" +:+ x.
Proof.
  induction l as [|a [|b r] IH]; intros Hne; [done|done|].
  change ((a :: b :: r) ++ [x]) with (a :: b :: (r ++ [x])).
  rewrite !concat_cons_cons.
  change (b :: r ++ [x]) with ((b :: r) ++ [x]). rewrite IH by done.
  by rewrite !string_app_assoc.
Qed.

Lemma split_acc_last sep cur (s : list ascii) :
  sep ∉ s →
  Str.split_acc sep cur s = [string_of_list_ascii (rev cur ++ s)].
Proof.
  revert cur. induction s as [|c s IH]; intros cur Hsep; simpl.
  - by rewrite app_nil_r.
  - apply not_elem_of_cons in Hsep as [Hc Hs].
    destruct (Ascii.eqb_spec c sep) as [->|_]; [done|].
    rewrite IH by done. simpl. by rewrite <- app_assoc.
Qed.

Lemma split_acc_sep sep cur (s rest : list ascii) :
  sep ∉ s →
  Str.split_acc sep cur (s ++ sep :: rest)
  = string_of_list_ascii (rev cur ++ s) :: Str.split_acc sep [] rest.
Proof.
  revert cur. induction s as [|c s IH]; intros cur Hsep; simpl.
  - rewrite Ascii.eqb_refl. by rewrite app_nil_r.
  - apply not_elem_of_cons in Hsep as [Hc Hs].
    destruct (Ascii.eqb_spec c sep) as [->|_]; [done|].
    rewrite IH by done. simpl. by rewrite <- app_assoc.
Qed.

(** Splitting what was joined gives the parts back. *)
Lemma split_concat (l : list string) :
  l ≠ [] →
  Forall (λ s, "/"%char ∉ list_ascii_of_string s) l →
  Str.split Path.sep (String.concat "/" l) = l.
Proof.
  unfold Str.split, Path.sep.
  induction l as [|a [|b r] IH]; intros Hne Hall; [done| |].
  - apply Forall_cons in Hall as [Ha _]. simpl.
    rewrite split_acc_last by done. simpl.
    by rewrite string_of_list_ascii_of_string.
  - apply Forall_cons in Hall as [Ha Hrest].
    rewrite concat_cons_cons, !chars_app. simpl.
    rewrite split_acc_sep by done. simpl.
    rewrite string_of_list_ascii_of_string. f_equal. by apply IH.
Qed.

Lemma normalizeSegments_plain allowAboveRoot res segs :
  Forall plainName segs →
  Path.normalizeSegments allowAboveRoot res segs = rev res ++ segs.
Proof.
  revert res. induction segs as [|s r IH]; intros res Hall; simpl.
  - by rewrite app_nil_r.
  - apply Forall_cons in Hall as [(Hne & Hdot & Hdots & _) Hr].
    rewrite !bool_decide_eq_false_2 by done. simpl.
    rewrite IH by done. simpl. by rewrite <- app_assoc.
Qed.

Lemma plainName_chars name :
  plainName name →
  ∃ c t, name = String c t ∧ c ≠ "/"%char.
Proof.
  intros (Hne & _ & _ & Hslash). destruct name as [|c t]; [done|].
  exists c, t. split; [done|]. intros ->. apply Hslash. simpl.
  apply list_elem_of_here.
Qed.

Lemma concat_plain_head (x : string) (r : list string) :
  plainName x →
  ∃ c t, String.concat "/" (x :: r) = String c t ∧ c ≠ "/"%char.
Proof.
  intros (c & t & -> & Hc)%plainName_chars.
  destruct r as [|y r]; [by exists c, t|].
  rewrite concat_cons_cons. simpl. eauto.
Qed.

Lemma ends_with_slash_plain (a z : string) :
  plainName z → Str.ends_with_slash (a +:+ z) = false.
Proof.
  intros (Hne & _ & _ & Hslash). unfold Str.ends_with_slash.
  rewrite chars_app, rev_app_distr.
  destruct (rev (list_ascii_of_string z)) as [|c r] eqn:Hrev.
  - destruct z; [done|]. simpl in Hrev.
    by apply app_eq_nil in Hrev as [_ ?].
  - simpl. destruct (Ascii.eqb_spec c "/") as [->|]; [|done].
    destruct Hslash. apply list_elem_of_In, in_rev, list_elem_of_In.
    rewrite Hrev. apply list_elem_of_here.
Qed.

Lemma concat_ends_plain (l : list string) :
  l ≠ [] → Forall plainName l →
  Str.ends_with_slash (String.concat "/" l) = false.
Proof.
  destruct l as [|x r] using rev_ind; [done|]. intros _ Hall.
  apply Forall_app in Hall as [_ [Hx _]%Forall_cons].
  destruct (decide (r = [])) as [->|Hr].
  - simpl. by apply (ends_with_slash_plain "").
  - rewrite concat_snoc by done. rewrite <- string_app_assoc.
    by apply ends_with_slash_plain.
Qed.

(** A path made of plain segments is already normal. *)
Lemma normalize_plain (l : list string) :
  l ≠ [] → Forall plainName l →
  Path.normalize (String.concat "/" l) = String.concat "/" l.
Proof.
  intros Hne Hall. unfold Path.normalize.
  destruct l as [|x r]; [done|].
  destruct (concat_plain_head x r) as (c & t & Hhead & Hc).
  { by apply Forall_cons in Hall as [? _]. }
  assert (Forall (λ s, "/"%char ∉ list_ascii_of_string s) (x :: r)) as Hslash.
  { eapply Forall_impl; [exact Hall|]. by intros s (_ & _ & _ & ?). }
  rewrite split_concat by done.
  rewrite normalizeSegments_plain by done. simpl rev. simpl app.
  rewrite concat_ends_plain by done.
  unfold Str.join. rewrite Hhead. simpl.
  by destruct (Ascii.eqb_spec c "/").
Qed.

Lemma join_plain_segments (l : list string) (file : string) :
  l ≠ [] → Forall plainName l → plainName file →
  Path.join (String.concat "/" l) file = String.concat "/" (l ++ [file]).
Proof.
  intros Hne Hall Hfile. unfold Path.join.
  destruct l as [|x r]; [done|].
  destruct (concat_plain_head x r) as (c & t & Hhead & Hc).
  { by apply Forall_cons in Hall as [? _]. }
  destruct Hfile as (Hf & Hrest).
  rewrite (bool_decide_eq_false_2 (String.concat "/" (x :: r) = ""))
    by (by rewrite Hhead).
  rewrite (bool_decide_eq_false_2 (file = "")) by done.
  rewrite <- concat_snoc by done.
  assert (Forall plainName ((x :: r) ++ [file])) as Hall'.
  { apply Forall_app. split; [done|]. by apply Forall_singleton. }
  destruct (concat_plain_head x (r ++ [file])) as (c' & t' & Hhead' & _).
  { by apply Forall_cons in Hall as [? _]. }
  rewrite bool_decide_eq_false_2 by (simpl app; by rewrite Hhead').
  by apply normalize_plain.
Qed.

(** Under a root of one plain segment, the key of a file is its path below
    the root. *)
Lemma entryName_relative (d : string) (below : list string) (file : string) :
  Forall plainName (d :: below) → plainName file →
  entryName (length below) (Path.join (String.concat "/" (d :: below)) file)
    file
  = Str.join "/" (below ++ [file]).
Proof.
  intros Hall Hfile. destruct below as [|b r]; [done|].
  unfold entryName. simpl length. cbv iota.
  rewrite join_plain_segments by done.
  rewrite split_concat; [done|done|].
  apply Forall_app. split.
  - eapply Forall_impl; [exact Hall|]. by intros s (_ & _ & _ & ?).
  - apply Forall_singleton. by destruct Hfile as (_ & _ & _ & ?).
Qed.

Section RelativeNamesFacts.
Context {pkg : Packages}.

Lemma walk_relative_below (d : string) (n : node) :
  plainTree n →
  ∀ below fileMap,
    Forall plainName (d :: below) →
    walk n (String.concat "/" (d :: below)) fileMap (length below)
    = walkRelative n (String.concat "/" (d :: below)) below fileMap.
Proof.
  induction n as [bytes size|entries IH] using node_induction; [done|].
  intros Hplain below fileMap Hbelow.
  assert (∀ file sub fileMap,
            reaches (Direct sub) (λ n, plainTree n → ∀ below fileMap,
                Forall plainName (d :: below) →
                walk n (String.concat "/" (d :: below)) fileMap (length below)
                = walkRelative n (String.concat "/" (d :: below)) below fileMap) →
            plainName file → plainTree sub →
            walk sub (Path.join (String.concat "/" (d :: below)) file)
              fileMap (S (length below))
            = walkRelative sub
                (Path.join (String.concat "/" (d :: below)) file)
                (below ++ [file]) fileMap) as Hstep.
  { intros file sub fm Hq Hfile Hp.
    cbv beta iota delta [reaches] in Hq.
    rewrite join_plain_segments by done.
    replace (S (length below)) with (length (below ++ [file]))
      by (rewrite length_app; simpl; lia).
    apply (Hq Hp (below ++ [file])).
    change (d :: below ++ [file]) with ((d :: below) ++ [file]).
    apply Forall_app. split; [done|]. by apply Forall_singleton. }
  assert (∀ file, plainName file →
            entryName (length below)
              (Path.join (String.concat "/" (d :: below)) file) file
            = Str.join "/" (below ++ [file])) as Hname
    by (intros file Hfile; by apply entryName_relative).
  remember (String.concat "/" (d :: below)) as dir eqn:Hdir.
  remember (length below) as depth eqn:Hdepth.
  clear Hdir Hdepth Hbelow.
  simpl. revert fileMap.
  induction IH as [|[file e] rest He _ IHrest]; intros fileMap; [done|].
  simpl in Hplain. destruct Hplain as (Hfile & Hsub & Hrest).
  specialize (IHrest Hrest). simpl.
  destruct (stat _ e) as [err|filestat]; [done|].
  destruct (Str.includes IGNORE_LIST file); [apply IHrest|].
  destruct (isSymbolicLink filestat); [apply IHrest|].
  destruct (isDirectory filestat).
  - destruct e as [sub|[sub|]]; [| |done].
    + rewrite (Hstep file sub fileMap He Hfile Hsub).
      destruct (walkRelative sub _ _ fileMap); [done|apply IHrest].
    + rewrite (Hstep file sub fileMap He Hfile Hsub).
      destruct (walkRelative sub _ _ fileMap); [done|apply IHrest].
  - rewrite (Hname file Hfile).
    destruct (readFile _ e); [done|].
    destruct (indexFile _ _ _ _); [done|apply IHrest].
Qed.

End RelativeNamesFacts.

(** X10. For a root directory given by one plain segment (as in
    ["dist"]), and entry names as [readdir] returns them, the walk stores
    every file under its path relative to the root, with ["/"] between the
    segments: it coincides, errors included, with [walkRelative]. *)
Theorem one_segment_root_gives_relative_names {pkg : Packages}
    (root : node) (directory : string) :
  plainName directory → plainTree root →
  walk root directory [] 0 = walkRelative root directory [] [].
Proof.
  intros Hdir Hplain.
  apply (walk_relative_below directory root Hplain [] []).
  by apply Forall_singleton.
Qed.

Lemma one_segment_root_gives_relative_names_witness :
  walk (pkg := Sample.packages) Sample.site "dist" [] 0
  = walkRelative (pkg := Sample.packages) Sample.site "dist" [] [].
Proof.
  apply (one_segment_root_gives_relative_names (pkg := Sample.packages)).
  - split_and!; [done..|]. simpl. intros Hin.
    repeat (apply elem_of_cons in Hin as [Hin|Hin]; [done|]).
    by apply elem_of_nil in Hin.
  - assert (∀ name, "/"%char ∉ list_ascii_of_string name →
                    name ≠ "" → name ≠ "." → name ≠ ".." → plainName name)
      as Hplain by (by intros name ????; split_and!).
    simpl. split_and!; try done; apply Hplain; try done; simpl; intros Hin;
      repeat (apply elem_of_cons in Hin as [Hin|Hin]; [done|]);
      by apply elem_of_nil in Hin.
Defined.

(** ** Ignored names and the keys of the index *)

Section IgnoredNames.
Context {pkg : Packages}.

Lemma walkRelative_keys (n : node) :
  plainTree n →
  ∀ dir below fileMap fileMap',
    Forall (λ s, plainName s ∧ s ∉ IGNORE_LIST) below →
    (∀ name, name ∈ JsMap.keys fileMap →
       Forall (λ s, s ∉ IGNORE_LIST) (Str.split Path.sep name)) →
    walkRelative n dir below fileMap = inr fileMap' →
    ∀ name, name ∈ JsMap.keys fileMap' →
      Forall (λ s, s ∉ IGNORE_LIST) (Str.split Path.sep name).
Proof.
  induction n as [bytes size|entries IH] using node_induction; [done|].
  intros Hplain dir below fileMap fileMap' Hbelow. simpl. revert fileMap.
  induction IH as [|[file e] rest He _ IHrest]; intros fileMap Hkeys.
  { by intros [= <-]. }
  simpl in Hplain. destruct Hplain as (Hfile & Hsub & Hrest).
  specialize (IHrest Hrest). simpl.
  destruct (stat _ e) as [err|filestat]; [done|].
  unfold Str.includes. case_bool_decide as Hignored; [by apply IHrest|].
  destruct (isSymbolicLink filestat); [by apply IHrest|].
  assert (Forall (λ s, plainName s ∧ s ∉ IGNORE_LIST) (below ++ [file]))
    as Hbelow'.
  { apply Forall_app. split; [done|]. by apply Forall_singleton. }
  destruct (isDirectory filestat).
  - destruct e as [sub|[sub|]]; cbv beta iota delta [reaches] in He;
      [| |done].
    + destruct (walkRelative sub _ _ fileMap) as [err|fm] eqn:Hwalk; [done|].
      apply IHrest. by apply (He Hsub _ _ _ _ Hbelow' Hkeys Hwalk).
    + destruct (walkRelative sub _ _ fileMap) as [err|fm] eqn:Hwalk; [done|].
      apply IHrest. by apply (He Hsub _ _ _ _ Hbelow' Hkeys Hwalk).
  - destruct (readFile _ e) as [err|bytes]; [done|].
    unfold indexFile. cbv zeta.
    destruct (MAX_FILE_SIZE <? st_size filestat)%Z; [done|].
    apply IHrest. intros name. rewrite set_keys.
    intros Hin.
    assert (name = Str.join "/" (below ++ [file]) ∨ name ∈ JsMap.keys fileMap)
      as [->|Hold]; [|unfold Str.join; rewrite split_concat|by apply Hkeys].
    + case_bool_decide; [by right|].
      apply elem_of_app in Hin as [?|Hin]; [by right|].
      apply list_elem_of_singleton in Hin. by left.
    + eapply Forall_impl; [exact Hbelow'|]. by intros s [_ ?].
    + by destruct below.
    + eapply Forall_impl; [exact Hbelow'|]. by intros s [(_ & _ & _ & ?) _].
Qed.

End IgnoredNames.

(** X11. Under a one-segment root, no key of the index has a segment that
    is on the ignore list: neither the file's own name nor the name of a
    directory above it. *)
Theorem index_keys_avoid_ignored_names {pkg : Packages} (root : node)
    (directory : string) (fileMap : FileMap) :
  plainName directory → plainTree root →
  walk root directory [] 0 = inr fileMap →
  ∀ name, name ∈ JsMap.keys fileMap →
    Forall (λ segment, segment ∉ IGNORE_LIST) (Str.split Path.sep name).
Proof.
  intros Hdir Hplain Hwalk.
  assert (walk root directory [] 0 = walkRelative root directory [] [])
    as Hrel.
  { apply (walk_relative_below directory root Hplain [] []).
    by apply Forall_singleton. }
  rewrite Hrel in Hwalk.
  apply (walkRelative_keys root Hplain directory [] [] fileMap);
    [done| |done].
  by intros name ?%elem_of_nil.
Qed.

Lemma index_keys_avoid_ignored_names_witness :
  Forall (λ segment, segment ∉ IGNORE_LIST)
    (Str.split Path.sep "css/site.css").
Proof.
  apply (index_keys_avoid_ignored_names (pkg := Sample.packages)
           Sample.site "dist" Sample.siteIndex); cycle 3.
  { apply elem_of_cons. right. apply elem_of_cons. by left. }
  - split_and!; [done..|]. simpl. intros Hin.
    repeat (apply elem_of_cons in Hin as [Hin|Hin]; [done|]).
    by apply elem_of_nil in Hin.
  - assert (∀ name, "/"%char ∉ list_ascii_of_string name →
                    name ≠ "" → name ≠ "." → name ≠ ".." → plainName name)
      as Hplain by (by intros name ????; split_and!).
    simpl. split_and!; try done; apply Hplain; try done; simpl; intros Hin;
      repeat (apply elem_of_cons in Hin as [Hin|Hin]; [done|]);
      by apply elem_of_nil in Hin.
  - reflexivity.
Defined.

(** ** Listing the projects of an account *)

Section ListProjectsFacts.
Context {Project R : Type}.
Variable projectsPage : string → nat → nat → R → result (list Project) * R.

Lemma listProjectsFrom_eq fuel accountId page (results : list Project) r :
  listProjectsFrom projectsPage fuel accountId page results r
  = if bool_decide (Nat.modulo (length results) pageSize = 0) then
      match fuel with
      | 0 => None
      | S fuel =>
          match projectsPage accountId pageSize page r with
          | (inl err, r) => Some (inl err, r)
          | (inr json, r) =>
              if bool_decide (length json < pageSize)
              then Some (inr (results ++ json), r)
              else listProjectsFrom projectsPage fuel accountId (S page)
                     (results ++ json) r
          end
      end
    else Some (inr results, r).
Proof. by destruct fuel. Qed.

Lemma listProjectsFrom_paginates accountId (all : list Project) r fuel :
  paginates projectsPage accountId all →
  ∀ k, pageSize * k ≤ length all →
    listProjectsFrom projectsPage fuel accountId (S k)
      (take (pageSize * k) all) r
    = if bool_decide (length all / pageSize < k + fuel)
      then Some (inr all, r) else None.
Proof.
  intros Hapi.
  assert (pageSize ≠ 0) as Hsize by done.
  induction fuel as [|fuel IH]; intros k Hk; rewrite listProjectsFrom_eq;
    rewrite length_take, Nat.min_l by done;
    rewrite (Nat.mul_comm pageSize k), Nat.Div0.mod_mul,
      bool_decide_eq_true_2 by done.
  - rewrite bool_decide_eq_false_2; [done|].
    pose proof (Nat.div_le_lower_bound (length all) pageSize k Hsize). lia.
  - rewrite Hapi. replace (S k - 1) with k by lia.
    rewrite (Nat.mul_comm k pageSize), take_take_drop, length_take,
      length_drop.
    case_bool_decide as Hshort.
    + rewrite take_ge by lia.
      rewrite bool_decide_eq_true_2; [done|].
      apply Nat.Div0.div_lt_upper_bound. lia.
    + replace (pageSize * k + pageSize) with (pageSize * S k) by lia.
      rewrite (IH (S k)) by lia.
      by replace (S k + fuel) with (k + S fuel) by lia.
Qed.

End ListProjectsFacts.

(** X12. Against an API that pages through the projects of the account,
    [listProjects] returns all of them, in the API's order, and it takes
    one request more than there are full pages: with fewer requests the
    loop is still running. *)
Theorem listProjects_returns_every_project {Project R : Type}
    (projectsPage : string → nat → nat → R → result (list Project) * R)
    (accountId : string) (all : list Project) (fuel : nat) (r : R) :
  paginates projectsPage accountId all →
  listProjects projectsPage fuel accountId r
  = if bool_decide (length all / pageSize < fuel)
    then Some (inr all, r) else None.
Proof.
  intros Hapi. unfold listProjects.
  apply (listProjectsFrom_paginates projectsPage accountId all r fuel Hapi 0).
  simpl. lia.
Qed.

Lemma listProjects_returns_every_project_witness :
  listProjects SampleProjects.paging 3 "account" ()
  = Some (inr SampleProjects.all, ())
  ∧ listProjects SampleProjects.paging 2 "account" () = None.
Proof.
  split.
  - by rewrite (listProjects_returns_every_project SampleProjects.paging
                  "account" SampleProjects.all 3 ()).
  - by rewrite (listProjects_returns_every_project SampleProjects.paging
                  "account" SampleProjects.all 2 ()).
Defined.

(** X13. The loop ends with the first answer that is not an even page:
    a short page, or a longer one whose number of entries is not a
    multiple of the page size, after which the [while] condition fails.
    When the API resolves with even pages and then with such an answer,
    [listProjects] returns all entries received, in order, after one
    request per answer; with fewer requests the loop is still running. *)
Theorem listProjects_ends_on_first_uneven_page {Project R : Type}
    (projectsPage : string → nat → nat → R → result (list Project) * R)
    (accountId : string) (even : list (list Project)) (final : list Project)
    (fuel : nat) (r r' : R) :
  answers projectsPage accountId 1 (even ++ [final]) r r' →
  Forall evenPage even →
  ¬ evenPage final →
  listProjects projectsPage fuel accountId r
  = if bool_decide (length even < fuel)
    then Some (inr (concat (even ++ [final])), r') else None.
Proof.
  unfold listProjects.
  change (concat (even ++ [final])) with ([] ++ concat (even ++ [final])).
  assert (Nat.modulo (length (@nil Project)) pageSize = 0) as Hmod by done.
  revert Hmod. generalize (@nil Project) as results. generalize 1 as page.
  revert fuel r.
  induction even as [|json even IH]; intros fuel r page results Hmod Hanswers
    Heven Hfinal; rewrite listProjectsFrom_eq, bool_decide_eq_true_2 by done.
  - inversion Hanswers as [|? ? ? ? r1 ? Hpage Hrest]; subst.
    inversion Hrest; subst.
    destruct fuel as [|fuel]; [done|]. rewrite Hpage. simpl.
    rewrite app_nil_r.
    case_bool_decide as Hshort; [done|].
    rewrite listProjectsFrom_eq, bool_decide_eq_false_2; [done|].
    rewrite length_app, <- Nat.Div0.add_mod_idemp_l, Hmod. simpl.
    intros Hzero. apply Hfinal. split; [lia|done].
  - inversion Hanswers as [|? ? ? ? r1 ? Hpage Hrest]; subst.
    apply Forall_cons in Heven as [[Hfull Hzero] Heven].
    destruct fuel as [|fuel]; [done|]. rewrite Hpage.
    rewrite bool_decide_eq_false_2 by lia.
    rewrite (IH fuel r1 (S page) (results ++ json)); [|  |done..].
    + simpl. rewrite app_assoc.
      case_bool_decide; case_bool_decide; done || lia.
    + by rewrite length_app, <- Nat.Div0.add_mod_idemp_l, Hmod.
Qed.

Lemma listProjects_ends_on_first_uneven_page_witness :
  listProjects SampleProjects.unpaged 1 "account" ()
  = Some (inr SampleProjects.all, ()).
Proof.
  rewrite (listProjects_ends_on_first_uneven_page SampleProjects.unpaged
             "account" [] SampleProjects.all 1 () ()).
  - reflexivity.
  - eapply answers_cons; [reflexivity|apply answers_nil].
  - apply List.Forall_nil.
  - intros [_ Hmod]. discriminate Hmod.
Defined.

(** X16. Against an API whose every answer is an even page, no number of
    requests is enough: the loop is still running after each of them. *)
Theorem listProjects_goes_on_after_even_pages {Project R : Type}
    (projectsPage : string → nat → nat → R → result (list Project) * R)
    (accountId : string) (fuel : nat) (r : R) :
  (∀ page r, ∃ json r',
     projectsPage accountId pageSize page r = (inr json, r')
     ∧ evenPage json) →
  listProjects projectsPage fuel accountId r = None.
Proof.
  intros Hfull. unfold listProjects.
  assert (∀ page results r,
            Nat.modulo (length results) pageSize = 0 →
            listProjectsFrom projectsPage fuel accountId page results r
            = None) as Hloop.
  { induction fuel as [|fuel IH]; intros page results r0 Hmod;
      rewrite listProjectsFrom_eq, bool_decide_eq_true_2 by done; [done|].
    destruct (Hfull page r0) as (json & r' & -> & Hlen & Hzero).
    rewrite bool_decide_eq_false_2 by lia.
    apply IH. by rewrite length_app, <- Nat.Div0.add_mod_idemp_l, Hmod. }
  by apply Hloop.
Qed.

Lemma listProjects_goes_on_after_even_pages_witness :
  listProjects SampleProjects.repeating 1000 "account" () = None.
Proof.
  apply (listProjects_goes_on_after_even_pages SampleProjects.repeating).
  intros page r. exists (seq 0 pageSize), r. by split.
Defined.

(** ** Request headers of the API client *)

(** X14. A caller that gives an [Authorization] header has its headers
    sent as they are, the user agent apart: no credential of the session
    is added, and none of the caller's is replaced. *)
Theorem caller_authorization_is_kept (wranglerVersion : string)
    (headers : option Cfetch.HeadersInit) (auth : Cfetch.ApiCredentials)
    (value name : string) :
  Cfetch.cloneHeaders headers !! "Authorization" = Some value →
  Cfetch.requestHeaders wranglerVersion headers auth !! name
  = if bool_decide (name = "User-Agent")
    then Some ("wrangler/" +:+ wranglerVersion)
    else Cfetch.cloneHeaders headers !! name.
Proof.
  intros Hgiven.
  unfold Cfetch.requestHeaders, Cfetch.addUserAgent,
    Cfetch.addAuthorizationHeaderIfUnspecified.
  rewrite bool_decide_eq_true_2 by (by rewrite Hgiven).
  case_bool_decide as Hname.
  - subst name. apply lookup_insert_eq.
  - by rewrite lookup_insert_ne.
Qed.

Lemma caller_authorization_is_kept_witness :
  Cfetch.requestHeaders "2.0.0"
    (Some (Cfetch.HeaderPairs
             [("Authorization", "Bearer first"); ("X-Auth-Key", "mine");
              ("Authorization", "Bearer second")]))
    (Cfetch.AuthKey "key" "me@example.com") !! "X-Auth-Key"
  = Some "mine".
Proof.
  rewrite (caller_authorization_is_kept "2.0.0" _ _ "Bearer second");
    reflexivity.
Defined.

(** X15. Without an [Authorization] header of the caller (spelled so:
    the test is on that very key), a token is sent as a bearer
    authorization, and a key with its e-mail address in the two
    [X-Auth-] headers, which replace the caller's, with no
    [Authorization] header at all. *)
Theorem credentials_are_added_when_unspecified (wranglerVersion : string)
    (headers : option Cfetch.HeadersInit) (auth : Cfetch.ApiCredentials) :
  Cfetch.cloneHeaders headers !! "Authorization" = None →
  match auth with
  | Cfetch.ApiToken apiToken =>
      Cfetch.requestHeaders wranglerVersion headers auth !! "Authorization"
      = Some ("Bearer " +:+ apiToken)
  | Cfetch.AuthKey authKey authEmail =>
      Cfetch.requestHeaders wranglerVersion headers auth !! "X-Auth-Key"
      = Some authKey
      ∧ Cfetch.requestHeaders wranglerVersion headers auth !! "X-Auth-Email"
        = Some authEmail
      ∧ Cfetch.requestHeaders wranglerVersion headers auth !! "Authorization"
        = None
  end.
Proof.
  intros Hnone.
  unfold Cfetch.requestHeaders, Cfetch.addUserAgent,
    Cfetch.addAuthorizationHeaderIfUnspecified.
  rewrite bool_decide_eq_false_2
    by (rewrite Hnone; by intros [? ?]).
  destruct auth as [apiToken|authKey authEmail].
  - rewrite lookup_insert_ne by done. apply lookup_insert_eq.
  - split_and!.
    + rewrite !lookup_insert_ne by done. apply lookup_insert_eq.
    + rewrite lookup_insert_ne by done. apply lookup_insert_eq.
    + by rewrite !lookup_insert_ne.
Qed.

Lemma credentials_are_added_when_unspecified_witness :
  Cfetch.requestHeaders "2.0.0"
    (Some (Cfetch.HeaderRecord {["authorization" := "Bearer mine"]}))
    (Cfetch.ApiToken "token") !! "Authorization"
  = Some "Bearer token".
Proof.
  apply (credentials_are_added_when_unspecified "2.0.0" _
           (Cfetch.ApiToken "token")).
  reflexivity.
Defined.

(** ** The files of a tree and their records *)

Lemma get_set_eq {V} k (v : V) m : JsMap.get k (JsMap.set k v m) = Some v.
Proof.
  induction m as [|[k0 v0] r IH]; simpl.
  - by rewrite String.eqb_refl.
  - destruct (String.eqb_spec k0 k) as [->|Hne]; simpl.
    + by rewrite String.eqb_refl.
    + by destruct (String.eqb_spec k0 k).
Qed.

Lemma get_set_ne {V} k k' (v : V) m :
  k ≠ k' → JsMap.get k (JsMap.set k' v m) = JsMap.get k m.
Proof.
  intros Hne. induction m as [|[k0 v0] r IH]; simpl.
  - by destruct (String.eqb_spec k' k) as [->|].
  - destruct (String.eqb_spec k0 k') as [->|Hne0]; simpl.
    + destruct (String.eqb_spec k' k) as [->|]; done.
    + by destruct (String.eqb_spec k0 k).
Qed.

Lemma concat_inj (l1 l2 : list string) :
  l1 ≠ [] → l2 ≠ [] →
  Forall (λ s, "/"%char ∉ list_ascii_of_string s) l1 →
  Forall (λ s, "/"%char ∉ list_ascii_of_string s) l2 →
  String.concat "/" l1 = String.concat "/" l2 → l1 = l2.
Proof.
  intros Hne1 Hne2 Hall1 Hall2 Heq.
  by rewrite <- (split_concat l1), <- (split_concat l2), Heq.
Qed.

Lemma entryOf_absent name entries :
  name ∉ map fst entries → entryOf name entries = None.
Proof.
  induction entries as [|[file e] rest IH]; [done|]. simpl.
  intros [Hne Hrest]%not_elem_of_cons.
  destruct (String.eqb_spec file name) as [->|_]; [done|]. by apply IH.
Qed.

Lemma fileAt_absent entries s segments :
  s ∉ map fst entries → fileAt (Dir entries) (s :: segments) = None.
Proof.
  intros Habsent. simpl. rewrite entryOf_absent by done.
  by destruct (Str.includes IGNORE_LIST s).
Qed.

Lemma fileAt_cons_ne file e rest s segments :
  file ≠ s →
  fileAt (Dir ((file, e) :: rest)) (s :: segments)
  = fileAt (Dir rest) (s :: segments).
Proof. intros Hne. simpl. by destruct (String.eqb_spec file s). Qed.

Lemma fileAt_cons_eq file e rest segments :
  fileAt (Dir ((file, e) :: rest)) (file :: segments)
  = if Str.includes IGNORE_LIST file then None
    else match e with
         | Direct sub | Symlink (Some sub) => fileAt sub segments
         | Symlink None => None
         end.
Proof. simpl. by rewrite String.eqb_refl. Qed.

Section FilesOfTree.
Context {pkg : Packages}.

Local Abbreviation slashFree :=
  (λ s : string, "/"%char ∉ list_ascii_of_string s).

(** The record that [indexFile] stores for a file. *)
Local Abbreviation stored name bytes size :=
  {| content := Base64.encode bytes;
     contentType := default "application/octet-stream" (getType name);
     sizeInBytes := size;
     hash := fingerprint (Base64.encode bytes) (extensionOf name) |}.

(** Keys that are no path under [below] are as they were. *)
Local Abbreviation untouched below fileMap fileMap' :=
  (∀ k, (∀ segs, segs ≠ [] → Forall slashFree segs →
           k ≠ String.concat "/" (below ++ segs)) →
        JsMap.get k fileMap' = JsMap.get k fileMap).

(** A path under [below] holds the record of the file of [n] it leads to,
    and is as it was when it leads to none. *)
Local Abbreviation filled below n fileMap fileMap' :=
  (∀ segs, segs ≠ [] → Forall slashFree segs →
     JsMap.get (String.concat "/" (below ++ segs)) fileMap'
     = match fileAt n segs with
       | Some (bytes, size) =>
           Some (stored (String.concat "/" (below ++ segs)) bytes size)
       | None => JsMap.get (String.concat "/" (below ++ segs)) fileMap
       end).

Lemma path_differs below (l1 l2 : list string) :
  Forall slashFree below → Forall slashFree l1 → Forall slashFree l2 →
  l1 ≠ [] → l2 ≠ [] → l1 ≠ l2 →
  String.concat "/" (below ++ l1) ≠ String.concat "/" (below ++ l2).
Proof.
  intros Hbelow H1 H2 Hne1 Hne2 Hne Heq. apply Hne.
  apply concat_inj in Heq.
  - by apply app_inv_head in Heq.
  - by destruct below, l1.
  - by destruct below, l2.
  - by apply Forall_app.
  - by apply Forall_app.
Qed.

Lemma entry_then_rest below file e rest fileMap fm1 fileMap' :
  file ∉ map fst rest →
  untouched below fileMap fm1 ∧ filled below (Dir [(file, e)]) fileMap fm1 →
  untouched below fm1 fileMap' ∧ filled below (Dir rest) fm1 fileMap' →
  untouched below fileMap fileMap'
  ∧ filled below (Dir ((file, e) :: rest)) fileMap fileMap'.
Proof.
  intros Hfresh [Hframe1 Hfill1] [Hframe2 Hfill2]. split.
  - intros k Hk. by rewrite Hframe2, Hframe1.
  - intros [|s segs] Hne Hsegs; [done|].
    rewrite Hfill2, Hfill1 by done.
    destruct (decide (file = s)) as [<-|Hs].
    + rewrite (fileAt_absent rest file) by done.
      by rewrite !fileAt_cons_eq.
    + rewrite (fileAt_cons_ne file e []), (fileAt_cons_ne file e rest) by done.
      rewrite (fileAt_absent [] s) by (by intros ?%elem_of_nil).
      done.
Qed.

Lemma ignored_entry below file e fileMap :
  Str.includes IGNORE_LIST file = true →
  untouched below fileMap fileMap
  ∧ filled below (Dir [(file, e)]) fileMap fileMap.
Proof.
  intros Hignored. split; [done|].
  intros [|s segs] _ _; [done|].
  destruct (decide (file = s)) as [<-|Hs].
  - by rewrite fileAt_cons_eq, Hignored.
  - rewrite fileAt_cons_ne by done.
    by rewrite (fileAt_absent [] s) by (by intros ?%elem_of_nil).
Qed.

Lemma file_entry below file e bytes size fileMap :
  Forall slashFree below → slashFree file →
  e = Direct (File bytes size) ∨ e = Symlink (Some (File bytes size)) →
  Str.includes IGNORE_LIST file = false →
  let name := String.concat "/" (below ++ [file]) in
  untouched below fileMap (JsMap.set name (stored name bytes size) fileMap)
  ∧ filled below (Dir [(file, e)]) fileMap
      (JsMap.set name (stored name bytes size) fileMap).
Proof.
  intros Hbelow Hfile He Hkept name. split.
  - intros k Hk. apply get_set_ne, Hk; [done|]. by apply Forall_singleton.
  - intros [|s segs] Hnil Hsegs; [done|].
    destruct (decide (s :: segs = [file])) as [[= -> ->]|Hother].
    + rewrite fileAt_cons_eq, Hkept.
      fold name. rewrite get_set_eq. by destruct He as [->| ->].
    + rewrite get_set_ne.
      2:{ apply path_differs; try done. by apply Forall_singleton. }
      destruct (decide (file = s)) as [<-|Hs].
      * rewrite fileAt_cons_eq, Hkept.
        destruct segs as [|x segs]; [done|]. by destruct He as [->| ->].
      * rewrite fileAt_cons_ne by done.
        by rewrite (fileAt_absent [] s) by (by intros ?%elem_of_nil).
Qed.

Lemma dir_entry below file e entries fileMap fm1 :
  Forall slashFree below → slashFree file →
  e = Direct (Dir entries) ∨ e = Symlink (Some (Dir entries)) →
  Str.includes IGNORE_LIST file = false →
  untouched (below ++ [file]) fileMap fm1
  ∧ filled (below ++ [file]) (Dir entries) fileMap fm1 →
  untouched below fileMap fm1 ∧ filled below (Dir [(file, e)]) fileMap fm1.
Proof.
  intros Hbelow Hfile He Hkept [Hframe Hfill]. split.
  - intros k Hk. apply Hframe. intros segs Hne Hsegs.
    rewrite <- app_assoc. apply Hk; [done|]. by apply Forall_cons.
  - intros [|s segs] Hnil Hsegs; [done|].
    apply Forall_cons in Hsegs as Hboth. destruct Hboth as [Hs Hsegs'].
    destruct (decide (file = s)) as [<-|Hne].
    + rewrite fileAt_cons_eq, Hkept.
      destruct segs as [|x segs].
      * replace (match e with
                 | Direct sub | Symlink (Some sub) => fileAt sub []
                 | Symlink None => None
                 end) with (@None (list byte * Z))
          by (by destruct He as [->| ->]).
        apply Hframe. intros segs Hne Hall. rewrite <- app_assoc.
        apply path_differs; try done; [by apply Forall_cons|].
        by destruct segs.
      * specialize (Hfill (x :: segs)). rewrite <- app_assoc in Hfill.
        change ([file] ++ x :: segs) with (file :: x :: segs) in Hfill.
        rewrite Hfill by done. by destruct He as [->| ->].
    + rewrite fileAt_cons_ne by done.
      rewrite (fileAt_absent [] s) by (by intros ?%elem_of_nil).
      apply Hframe. intros segs' Hne' Hall. rewrite <- app_assoc.
      apply path_differs; try done; [by apply Forall_cons|].
      intros [= -> _]. done.
Qed.

(** What the walk leaves in the index, key by key. *)
Lemma walkRelative_get (n : node) :
  plainTree n → distinctNames n →
  ∀ dir below fileMap fileMap',
    Forall slashFree below →
    walkRelative n dir below fileMap = inr fileMap' →
    untouched below fileMap fileMap' ∧ filled below n fileMap fileMap'.
Proof.
  induction n as [bytes size|entries IH] using node_induction; [done|].
  intros Hplain Hdistinct dir below fileMap fileMap' Hbelow.
  simpl in Hplain, Hdistinct. cbn [walkRelative].
  revert fileMap Hplain Hdistinct.
  induction IH as [|[file e] rest He _ IHrest];
    intros fileMap Hplain Hdistinct.
  { intros [= <-]. split; [done|]. intros [|s segs] Hnil _; [done|].
    by rewrite (fileAt_absent [] s) by (by intros ?%elem_of_nil). }
  destruct Hplain as (Hfile & Hsubplain & Hrestplain).
  destruct Hdistinct as (Hfresh & Hsubdistinct & Hrestdistinct).
  assert (slashFree file) as Hslash by (by destruct Hfile as (_ & _ & _ & ?)).
  assert (Forall slashFree (below ++ [file])) as Hbelow'.
  { apply Forall_app. split; [done|]. by apply Forall_singleton. }
  cbv beta iota zeta.
  destruct (stat (Path.join dir file) e) as [err|filestat] eqn:Hstat;
    [done|].
  destruct (Str.includes IGNORE_LIST file) eqn:Hignored.
  { intros Hloop. apply (entry_then_rest below file e rest fileMap fileMap);
      [done|by apply ignored_entry|by apply IHrest]. }
  rewrite (stat_not_symlink _ _ _ Hstat).
  destruct e as [sub|[sub|]]; [| |done].
  - injection Hstat as <-. cbv beta iota delta [reaches] in He.
    destruct sub as [bytes size|entries]; simpl.
    + unfold indexFile. cbv zeta. simpl st_size.
      destruct (MAX_FILE_SIZE <? size)%Z; [done|].
      intros Hloop.
      apply (entry_then_rest below file _ rest fileMap
               (JsMap.set (Str.join "/" (below ++ [file]))
                  (stored (Str.join "/" (below ++ [file])) bytes size)
                  fileMap));
        [done| |by apply IHrest].
      apply file_entry; auto.
    + destruct (walkRelative (Dir entries) (Path.join dir file)
                  (below ++ [file]) fileMap) as [err|fm1] eqn:Hsub;
        [simpl in Hsub; by rewrite Hsub|].
      pose proof (He Hsubplain Hsubdistinct _ _ _ _ Hbelow' Hsub) as Hfacts.
      simpl in Hsub. rewrite Hsub. intros Hloop.
      apply (entry_then_rest below file _ rest fileMap fm1);
        [done| |by apply IHrest].
      eapply dir_entry; eauto.
  - injection Hstat as <-. cbv beta iota delta [reaches] in He.
    destruct sub as [bytes size|entries]; simpl.
    + unfold indexFile. cbv zeta. simpl st_size.
      destruct (MAX_FILE_SIZE <? size)%Z; [done|].
      intros Hloop.
      apply (entry_then_rest below file _ rest fileMap
               (JsMap.set (Str.join "/" (below ++ [file]))
                  (stored (Str.join "/" (below ++ [file])) bytes size)
                  fileMap));
        [done| |by apply IHrest].
      apply file_entry; auto.
    + destruct (walkRelative (Dir entries) (Path.join dir file)
                  (below ++ [file]) fileMap) as [err|fm1] eqn:Hsub;
        [simpl in Hsub; by rewrite Hsub|].
      pose proof (He Hsubplain Hsubdistinct _ _ _ _ Hbelow' Hsub) as Hfacts.
      simpl in Hsub. rewrite Hsub. intros Hloop.
      apply (entry_then_rest below file _ rest fileMap fm1);
        [done| |by apply IHrest].
      eapply dir_entry; eauto.
Qed.

End FilesOfTree.

(** ** The extension of a name *)









(** ** Names as paths *)

Lemma string_of_chars_app (l1 l2 : list ascii) :
  string_of_list_ascii (l1 ++ l2)
  = string_of_list_ascii l1 +:+ string_of_list_ascii l2.
Proof. induction l1 as [|c l1 IH]; [done|]. simpl. by rewrite IH. Qed.

Lemma chars_of_string_of_chars (l : list ascii) :
  list_ascii_of_string (string_of_list_ascii l) = l.
Proof. apply list_ascii_of_string_of_list_ascii. Qed.

Lemma elem_of_rev {A} (x : A) (l : list A) : x ∈ rev l → x ∈ l.
Proof. intros Hin. by apply list_elem_of_In, in_rev, list_elem_of_In. Qed.

Lemma split_acc_parts (cur l : list ascii) :
  "/"%char ∉ cur →
  ∃ first others,
    Str.split_acc "/" cur l = first :: others
    ∧ Forall (λ s, "/"%char ∉ list_ascii_of_string s) (first :: others)
    ∧ String.concat "/" (first :: others)
      = string_of_list_ascii (rev cur ++ l).
Proof.
  revert cur. induction l as [|c l IH]; intros cur Hcur; cbn [Str.split_acc].
  - exists (string_of_list_ascii (rev cur)), []. split_and!; [done| |].
    + apply Forall_singleton. rewrite chars_of_string_of_chars.
      by intros ?%elem_of_rev.
    + by rewrite app_nil_r.
  - destruct (Ascii.eqb_spec c "/") as [->|Hc].
    + destruct (IH []) as (first & others & Hsplit & Hfree & Hconcat).
      { by intros ?%elem_of_nil. }
      exists (string_of_list_ascii (rev cur)), (first :: others).
      rewrite Hsplit. split_and!; [done| |].
      * apply Forall_cons. split; [|done].
        rewrite chars_of_string_of_chars. by intros ?%elem_of_rev.
      * rewrite concat_cons_cons, Hconcat. change (rev [] ++ l) with l.
        by rewrite (string_of_chars_app (rev cur)).
    + destruct (IH (c :: cur)) as (first & others & Hsplit & Hfree & Hconcat).
      { intros [Heq|?]%elem_of_cons; [by subst c|done]. }
      exists first, others. split_and!; [done..|].
      rewrite Hconcat. simpl rev. by rewrite <- app_assoc.
Qed.

(** Every name is the join of its segments, none of which has a
    separator. *)
Lemma concat_split (name : string) :
  Str.split Path.sep name ≠ []
  ∧ Forall (λ s, "/"%char ∉ list_ascii_of_string s) (Str.split Path.sep name)
  ∧ String.concat "/" (Str.split Path.sep name) = name.
Proof.
  unfold Str.split, Path.sep.
  destruct (split_acc_parts [] (list_ascii_of_string name))
    as (first & others & -> & Hfree & Hconcat).
  { by intros ?%elem_of_nil. }
  split_and!; [done..|].
  rewrite Hconcat. simpl. apply string_of_list_ascii_of_string.
Qed.

(** ** Fingerprints of the files of a tree *)



Section Fingerprints.
Context {pkg : Packages}.

(** Under a root of one plain segment, the index has the record of a file
    under its path, and nothing else. *)
Lemma index_of_tree (root : node) (directory : string) (fileMap : FileMap) :
  plainName directory → plainTree root → distinctNames root →
  walk root directory [] 0 = inr fileMap →
  ∀ segments,
    segments ≠ [] →
    Forall (λ s, "/"%char ∉ list_ascii_of_string s) segments →
    JsMap.get (Str.join "/" segments) fileMap
    = match fileAt root segments with
      | Some (bytes, size) =>
          Some {| content := Base64.encode bytes;
                  contentType :=
                    default "application/octet-stream"
                      (getType (Str.join "/" segments));
                  sizeInBytes := size;
                  hash := fingerprint (Base64.encode bytes)
                            (extensionOf (Str.join "/" segments)) |}
      | None => None
      end.
Proof.
  intros Hdir Hplain Hdistinct Hwalk segments Hne Hfree.
  assert (walk root directory [] 0 = walkRelative root directory [] [])
    as Hrel.
  { apply (walk_relative_below directory root Hplain [] []).
    by apply Forall_singleton. }
  rewrite Hrel in Hwalk.
  destruct (walkRelative_get root Hplain Hdistinct directory [] [] fileMap
              (List.Forall_nil _) Hwalk) as [_ Hfill].
  exact (Hfill segments Hne Hfree).
Qed.

End Fingerprints.


Ltac not_in_list :=
  simpl; let Hin := fresh "Hin" in
  intros Hin;
  repeat (apply elem_of_cons in Hin as [Hin|Hin]; [done|]);
  by apply elem_of_nil in Hin.


(** X17. Under a one-segment root the index, as a map from keys to
    records, is determined by the files that the tree holds: two trees
    with the same files at the same paths give indexes that agree on
    every key, whatever the order in which their directories list the
    entries. *)
Theorem index_is_determined_by_the_files {pkg : Packages}
    (root1 root2 : node) (directory : string) (fileMap1 fileMap2 : FileMap)
    (name : string) :
  plainName directory →
  plainTree root1 → distinctNames root1 →
  plainTree root2 → distinctNames root2 →
  (∀ segments, fileAt root1 segments = fileAt root2 segments) →
  walk root1 directory [] 0 = inr fileMap1 →
  walk root2 directory [] 0 = inr fileMap2 →
  JsMap.get name fileMap1 = JsMap.get name fileMap2.
Proof.
  intros Hdir Hplain1 Hdistinct1 Hplain2 Hdistinct2 Hsame Hwalk1 Hwalk2.
  destruct (concat_split name) as (Hne & Hfree & Hname).
  rewrite <- Hname. fold (Str.join "/" (Str.split Path.sep name)).
  rewrite (index_of_tree root1 directory fileMap1) by done.
  rewrite (index_of_tree root2 directory fileMap2) by done.
  by rewrite Hsame.
Qed.

Lemma index_is_determined_by_the_files_witness :
  ∃ fileMap,
    walk (pkg := Sample.packages) SampleTrees.reordered "dist" [] 0
    = inr fileMap
    ∧ JsMap.keys fileMap ≠ JsMap.keys Sample.siteIndex
    ∧ JsMap.get "css/site.css" Sample.siteIndex
      = JsMap.get "css/site.css" fileMap.
Proof.
  assert (∀ name, "/"%char ∉ list_ascii_of_string name →
                  name ≠ "" → name ≠ "." → name ≠ ".." → plainName name)
    as Hname by (by intros name ????; split_and!).
  eexists. split; [reflexivity|]. split; [done|].
  apply (index_is_determined_by_the_files (pkg := Sample.packages)
           Sample.site SampleTrees.reordered "dist").
  - apply Hname; try done. not_in_list.
  - simpl. split_and!; try done; apply Hname; try done; not_in_list.
  - simpl. split_and!; try done; not_in_list.
  - simpl. split_and!; try done; apply Hname; try done; not_in_list.
  - simpl. split_and!; try done; not_in_list.
  - intros [|s rest]; [done|]. cbn [fileAt].
    destruct (Str.includes IGNORE_LIST s) eqn:Hignored; [done|].
    cbn [entryOf Sample.site SampleTrees.reordered].
    repeat match goal with
           | |- context [String.eqb ?a s] =>
               destruct (String.eqb_spec a s) as [<-|?]; try done
           end.
  - reflexivity.
  - reflexivity.
Defined.
